(** * Synthetis: the fragment compositor

    A shallow embedding of the rendering core of the [synthetis] library
    ([lib/Renderer.js], [lib/FragmentManager.js], [lib/Fragment.js],
    [lib/FragmentBody.js], [lib/errors.js] and [lib/render.js]), of the
    interpolation of urls ([lib/Url.js]) and of the method of a route
    ([lib/Route.js]), with the properties its design document states about it
    and further ones read off the code.

    Conventions of the embedding.
    - A JavaScript string is a [string]; a character stands for one code
      unit below 256. A number is an integer of absolute value at most
      [2^53].
    - A plain object is the finite map ([gmap]) of its own properties; a
      property that is read and is not among them is looked up among the
      members of [Object.prototype] ([js_get]). The fragments of a route are
      taken not to be stored under the key [__proto__], which would replace
      that prototype.
    - What is thrown, and what a promise is rejected with, is an [Error]
      object.
    - The fetcher is a function of the calls made before (so it may answer
      two identical calls differently); a call either throws or returns a
      promise, given by the outcome it settles with. The calls are recorded
      in order.
    - An async function runs up to its first [await] when it is called and
      returns a promise; a promise that is not settled is resumed step by
      step, each step running up to the next [await]. The order in which
      the pending promises of a request are resumed is not fixed by the
      code: it is read from a schedule, and the properties hold for every
      schedule. A rendering that is started and never awaited is kept as
      left behind, and goes on at the times the schedule gives it.
    - The libraries [dot] (template engine) and [lodash.get], and
      [url.resolve] of Node, are parameters. *)

From Stdlib Require Import ZArith Ascii String DecimalString.
From stdpp Require Import base option list gmap strings.

Set Warnings "-register-all".
Local Open Scope string_scope.
Local Open Scope list_scope.

(** ** JavaScript values and errors *)

(** [new Error(message)] with its [name], and the [FragmentRenderError] of
    [lib/errors.js], which remembers the error it wraps. *)
Inductive error : Type :=
| JsError (name message : string)
| FragmentRenderError (original : error).

(** [BaseError]: [const message = error.message || ''] *)
Fixpoint error_message (e : error) : string :=
  match e with
  | JsError _ m => m
  | FragmentRenderError o => error_message o
  end.

Definition error_name (e : error) : string :=
  match e with
  | JsError n _ => n
  | FragmentRenderError _ => "FragmentRenderError"
  end.

(** [error instanceof FragmentRenderError] *)
Definition instanceof_FragmentRenderError (e : error) : bool :=
  match e with
  | FragmentRenderError _ => true
  | JsError _ _ => false
  end.

Definition Error (message : string) : error := JsError "Error" message.
Definition TypeError (message : string) : error := JsError "TypeError" message.

Inductive value : Type :=
| VUndefined
| VNull
| VBool (b : bool)
| VNum (n : Z)
| VStr (s : string)
| VArr (items : list value)
| VObj (fields : list (string * value))
| VError (e : error).

(** Truthiness, as used by [||], [&&] and [!!]. *)
Definition truthy (v : value) : bool :=
  match v with
  | VUndefined | VNull => false
  | VBool b => b
  | VNum n => negb (n =? 0)%Z
  | VStr s => negb (String.eqb s EmptyString)
  | VArr _ | VObj _ | VError _ => true
  end.

(** [a || b] *)
Definition js_or (a b : value) : value := if truthy a then a else b.

(** [typeof v === 'string'] *)
Definition is_string (v : value) : bool :=
  match v with VStr _ => true | _ => false end.

(** The string of an integer of absolute value below [10^21]: its decimal
    numeral. *)
Definition Z_to_string (n : Z) : string :=
  NilEmpty.string_of_int (Z.to_int n).

(** [Error.prototype.toString] *)
Definition error_toString (e : error) : string :=
  if String.eqb (error_message e) EmptyString then error_name e
  else error_name e +:+ ": " +:+ error_message e.

(** String conversion, as performed by [+] with a string operand. *)
Fixpoint js_toString (v : value) : string :=
  match v with
  | VUndefined => "undefined"
  | VNull => "null"
  | VBool true => "true"
  | VBool false => "false"
  | VNum n => Z_to_string n
  | VStr s => s
  | VArr items =>
      (fix join (l : list value) : string :=
         match l with
         | [] => EmptyString
         | x :: r =>
             let sx := match x with
                       | VUndefined | VNull => EmptyString
                       | _ => js_toString x
                       end in
             match r with
             | [] => sx
             | _ :: _ => sx +:+ "," +:+ join r
             end
         end) items
  | VObj _ => "[object Object]"
  | VError e => error_toString e
  end.

(** [o[key]] on an object literal given as the list of its own
    properties, for a key among them (the first binding of a key is its
    value). *)
Fixpoint field (key : string) (fields : list (string * value)) : value :=
  match fields with
  | [] => VUndefined
  | (k, v) :: rest => if String.eqb k key then v else field key rest
  end.

(** The values whose string is written out in full by [js_toString]:
    every number in them is a safe integer. *)
Fixpoint printable (v : value) : bool :=
  match v with
  | VNum n => (Z.abs n <=? 2 ^ 53)%Z
  | VArr items =>
      (fix all (l : list value) : bool :=
         match l with
         | [] => true
         | x :: r => printable x && all r
         end) items
  | _ => true
  end.

(** ** Plain objects *)

(** The names of the members of [Object.prototype], which every plain
    object inherits. *)
Definition Object_prototype : list string :=
  ["constructor"; "__defineGetter__"; "__defineSetter__"; "hasOwnProperty";
   "__lookupGetter__"; "__lookupSetter__"; "isPrototypeOf";
   "propertyIsEnumerable"; "toString"; "valueOf"; "__proto__"; "toLocaleString"].

(** What [object[name]] evaluates to on a plain object: the value of an own
    property, else the member of [Object.prototype] of that name (a
    function, or the prototype itself for [__proto__]), else undefined. *)
Inductive Property (A : Type) : Type :=
| Own (a : A)
| Inherited (name : string)
| Absent.

Arguments Own {A} a.
Arguments Inherited {A} name.
Arguments Absent {A}.

Definition js_get {A : Type} (object : gmap string A) (name : string) : Property A :=
  match object !! name with
  | Some a => Own a
  | None => if bool_decide (name ∈ Object_prototype) then Inherited name else Absent
  end.

(** [!!object[name]] where the own properties are objects: every member of
    [Object.prototype] is truthy. *)
Definition has_property {A : Type} (object : gmap string A) (name : string) : bool :=
  match js_get object name with
  | Own _ | Inherited _ => true
  | Absent => false
  end.

(** The string of a member of [Object.prototype]. *)
Definition inherited_toString (name : string) : string :=
  if String.eqb name "__proto__" then "[object Object]"
  else if String.eqb name "constructor" then "function Object() { [native code] }"
  else "function " +:+ name +:+ "() { [native code] }".

(** ** Strings *)

(** [s.substring(start, end)] for non-negative integers. *)
Definition js_substring (s : string) (start stop : nat) : string :=
  let a := Nat.min (Nat.min start stop) (String.length s) in
  let b := Nat.min (Nat.max start stop) (String.length s) in
  String.substring a (b - a) s.

(** [s.substring(start)] *)
Definition js_substring_from (s : string) (start : nat) : string :=
  js_substring s start (String.length s).

Definition is_upper (c : ascii) : bool :=
  let n := nat_of_ascii c in ((65 <=? n) && (n <=? 90))%nat.

(** Case folding of the [i] flag; only ASCII letters fold onto the ASCII
    characters of the patterns below. *)
Definition fold_case (c : ascii) : ascii :=
  if is_upper c then ascii_of_nat (nat_of_ascii c + 32) else c.

Definition ci_eqb (a b : ascii) : bool :=
  Ascii.eqb (fold_case a) (fold_case b).

(** The class [\s] on code units below 256. *)
Definition is_space (c : ascii) : bool :=
  let n := nat_of_ascii c in
  (((9 <=? n) && (n <=? 13)) || (n =? 32) || (n =? 160))%nat.

Definition is_gt (c : ascii) : bool := Ascii.eqb c ">".

(** The class of the double and the single quote. *)
Definition is_quote (c : ascii) : bool :=
  Ascii.eqb c "034" || Ascii.eqb c "'".

(** Match the literal [p] at the head of [s], ignoring case; the rest of
    [s] on success. *)
Fixpoint ci_strip (p s : string) : option string :=
  match p with
  | EmptyString => Some s
  | String a p' =>
      match s with
      | EmptyString => None
      | String b s' => if ci_eqb a b then ci_strip p' s' else None
      end
  end.

(** [s.split(sep)] for a one-character separator. *)
Fixpoint split_on (sep : ascii) (s : string) : list string :=
  match s with
  | EmptyString => [EmptyString]
  | String c s' =>
      if Ascii.eqb c sep then EmptyString :: split_on sep s'
      else match split_on sep s' with
           | [] => [String c EmptyString]
           | w :: ws => String c w :: ws
           end
  end.

Fixpoint trim_left (s : string) : string :=
  match s with
  | EmptyString => EmptyString
  | String c s' => if is_space c then trim_left s' else s
  end.

Fixpoint trim_right (s : string) : string :=
  match s with
  | EmptyString => EmptyString
  | String c s' =>
      match trim_right s' with
      | EmptyString => if is_space c then EmptyString else String c EmptyString
      | t => String c t
      end
  end.

(** [s.trim()] *)
Definition trim (s : string) : string := trim_right (trim_left s).

(** ** The regular expressions of the renderer *)

(** One result of [fragmentTagRegexp.exec]: the two captures, [match.index]
    and the [lastIndex] of the expression after the match. *)
Record TagMatch := mkTagMatch {
  commandAttribs : string;
  embeddedTemplate : string;
  matchIndex : nat;
  lastIndex : nat
}.

(** The longest run of characters other than [>] at the head of [s], and
    what follows it. *)
Fixpoint span_not_gt (s : string) : string * string :=
  match s with
  | EmptyString => (EmptyString, EmptyString)
  | String c s' =>
      if is_gt c then (EmptyString, s)
      else let (run, rest) := span_not_gt s' in (String c run, rest)
  end.

Definition open_tag : string := "<fragment-inject ".
Definition close_tag : string := "</fragment-inject>".

(** [([\s\S]*?)<\/fragment-inject>]: the shortest text followed by the
    closing tag. *)
Fixpoint lazy_until_close (s : string) : option string :=
  match ci_strip close_tag s with
  | Some _ => Some EmptyString
  | None =>
      match s with
      | EmptyString => None
      | String c s' =>
          match lazy_until_close s' with
          | Some body => Some (String c body)
          | None => None
          end
      end
  end.

(** [/<fragment-inject ([^>]+)>([\s\S]*?)<\/fragment-inject>/i] anchored at
    the head of [s]: the captures and the length of the match. *)
Definition match_tag_here (s : string) : option (string * string * nat) :=
  match ci_strip open_tag s with
  | None => None
  | Some r1 =>
      match span_not_gt r1 with
      | (EmptyString, _) => None
      | (attribs, String _ r2) =>
          match lazy_until_close r2 with
          | Some body =>
              Some (attribs, body,
                    String.length open_tag + String.length attribs + 1 +
                    String.length body + String.length close_tag)
          | None => None
          end
      | (_, EmptyString) => None
      end
  end.

(** The loop [while (match = fragmentTagRegexp.exec(fragmentBody))] of a
    global expression: all matches, left to right, none overlapping.
    [pos] is the index of the head of [s]; [skip] counts the characters
    still covered by the previous match. *)
Fixpoint exec_all_from (s : string) (pos skip : nat) : list TagMatch :=
  match s with
  | EmptyString => []
  | String _ s' =>
      match skip with
      | S k => exec_all_from s' (S pos) k
      | O =>
          match match_tag_here s with
          | Some (attribs, body, len) =>
              mkTagMatch attribs body pos (pos + len)
                :: exec_all_from s' (S pos) (len - 1)
          | None => exec_all_from s' (S pos) 0
          end
      end
  end.

Definition exec_all (s : string) : list TagMatch := exec_all_from s 0 0.

(** No character of [s] is [<]. *)
Fixpoint without_lt (s : string) : bool :=
  match s with
  | EmptyString => true
  | String c s' => negb (Ascii.eqb c "<") && without_lt s'
  end.

(** The capture [([^\s>]+)] and the quote after it, at the head of [s]: the
    longest non-empty run of characters that are neither blank nor [>] and
    that a quote follows. *)
Fixpoint capture_before_quote (s : string) : option string :=
  match s with
  | EmptyString => None
  | String c s' =>
      if is_space c || is_gt c then None
      else match capture_before_quote s' with
           | Some cap => Some (String c cap)
           | None =>
               match s' with
               | String q _ => if is_quote q then Some (String c EmptyString) else None
               | EmptyString => None
               end
           end
  end.

(** [exec] of the expressions [key], quote, [([^\s>]+)], quote, with flags
    [im]: the capture of the leftmost match. *)
Fixpoint exec_quoted (key s : string) : option string :=
  let here :=
    match ci_strip key s with
    | Some (String q r) => if is_quote q then capture_before_quote r else None
    | _ => None
    end in
  match here with
  | Some cap => Some cap
  | None =>
      match s with
      | EmptyString => None
      | String _ s' => exec_quoted key s'
      end
  end.

(** [/(?:^|\s)word(?:$|\s|>)/im.test(s)]; [boundary] tells whether the head
    of [s] is at the start of the text or follows a blank. *)
Fixpoint test_word_from (word s : string) (boundary : bool) : bool :=
  match s with
  | EmptyString => false
  | String c s' =>
      (boundary &&
       match ci_strip word s with
       | Some EmptyString => true
       | Some (String d _) => is_space d || is_gt d
       | None => false
       end)
      || test_word_from word s' (is_space c)
  end.

Definition test_word (word s : string) : bool := test_word_from word s true.

(** The expressions of [_regExpAttributes], applied. *)
Definition regex_name (s : string) : option string := exec_quoted "fragment-name=" s.
Definition regex_template (s : string) : bool := test_word "template" s.
Definition regex_required (s : string) : bool := test_word "required" s.
Definition regex_repeat (s : string) : option string := exec_quoted "fragment-repeat=" s.
Definition regex_models (s : string) : option string := exec_quoted "models=" s.

(** ** Fragments ([lib/Fragment.js]) *)

(** A configured message: a value (undefined when unset) or a callback on
    the triggering error. *)
Inductive messageConfig : Type :=
| MsgValue (v : value)
| MsgCallback (callback : value -> value).

(** The fields of a [Fragment] that the compositor reads; [_url] is kept
    opaque. *)
Record Fragment := mkFragment {
  _url : option string;
  _data : value;
  _bodyType : option string;
  _requiredData : option (list string);
  _required : bool;
  _contentMissingMessage : messageConfig;
  _contentRenderErrorMessage : messageConfig
}.

(** [get requiredData() { return this._requiredData || []; }] *)
Definition requiredData (f : Fragment) : list string :=
  match _requiredData f with
  | Some names => names
  | None => []
  end.

(** [get isRequired() { return !!this._required; }] *)
Definition isRequired (f : Fragment) : bool := _required f.

Definition localData (f : Fragment) : value := _data f.

Definition bodyType (f : Fragment) : string :=
  match _bodyType f with
  | Some t => t
  | None => "html"
  end.

(** [typeof c === 'function' ? c(fetchError) : c] *)
Definition resolve_message (c : messageConfig) (fetchError : value) : value :=
  match c with
  | MsgCallback callback => callback fetchError
  | MsgValue v => v
  end.

Definition default_missing_message : string :=
  "<p>Sorry this content could not be fetched. Please try again.</p>".
Definition default_render_error_message : string :=
  "<p>Sorry this content could not be rendered. Please try again.</p>".

(** [contentMissingMessage(fetchError)]: an object with a [body] and a
    [contentType]. *)
Definition contentMissingMessage (f : Fragment) (fetchError : value) : value :=
  let message := resolve_message (_contentMissingMessage f) fetchError in
  VObj [("body", js_or message (VStr default_missing_message));
        ("contentType",
         VStr (if is_string message then "text/html" else "application/json"))].

(** [contentRenderErrorMessage(fetchError)] *)
Definition contentRenderErrorMessage (f : Fragment) (fetchError : value) : value :=
  let message := resolve_message (_contentRenderErrorMessage f) fetchError in
  js_or message (VStr default_render_error_message).

(** [Fragment.html(options)()] for the options [{ required, data }] the
    renderer passes. *)
Definition html (required : bool) (data : value) : Fragment :=
  {| _url := None;
     _data := data;
     _bodyType := Some "html";
     _requiredData := None;
     _required := required;
     _contentMissingMessage := MsgValue VUndefined;
     _contentRenderErrorMessage := MsgValue VUndefined |}.

(** ** Fragment bodies ([lib/FragmentBody.js]) *)

Record FragmentBody := mkFragmentBody {
  body : value;
  contentType : value
}.

(** [constructor(body, contentType = 'text/html')] *)
Definition new_FragmentBody (b ct : value) : FragmentBody :=
  mkFragmentBody b (match ct with VUndefined => VStr "text/html" | _ => ct end).

(** ** Routes, as far as the compositor reads them ([lib/Route.js]) *)

Record Route := mkRoute {
  baseTemplate : Fragment;
  fragments : gmap string Fragment
}.

(** ** The fetcher *)

(** One call [fetch(fragment, context, options)] within a request: its
    first argument, which is what the manager found under a name or a
    fragment made by the renderer, and the option [neverHandleError], if
    given. *)
Record FetchCall := mkFetchCall {
  call_fragment : Property Fragment;
  call_neverHandleError : option bool
}.

(** What a call of the fetcher does: it throws, or it returns a promise,
    given by the outcome the promise settles with. *)
Inductive Answer : Type :=
| Throws (e : error)
| Returns (promise : error + FragmentBody).

(** The body the caller awaits, when the call and the promise are taken
    together. *)
Definition outcome (answer : Answer) : error + FragmentBody :=
  match answer with
  | Throws e => inl e
  | Returns promise => promise
  end.

(** [promise.then(f => f.body)] on the promise a fetcher returned. *)
Definition then_body (promise : error + FragmentBody) : error + value :=
  match promise with
  | inl e => inl e
  | inr f => inr (body f)
  end.

(** [promise.then(f => f.contentType)] *)
Definition then_contentType (promise : error + FragmentBody) : error + value :=
  match promise with
  | inl e => inl e
  | inr f => inr (contentType f)
  end.

(** ** The renderer: constants, errors, attributes *)

(** The errors the renderer raises itself, under the names of the design
    document. *)
Definition EmptyBody : error := Error "A fragment body is undefined".
Definition UnknownFragmentReference (name : string) : error :=
  Error ("A source fragment does not exist with name " +:+ name).
Definition MissingTemplateSpecification : error :=
  Error "A fragment inject found with no name or embed".
Definition InvalidRepeatSource (accessor : string) : error :=
  Error ("Attempting to render a list of data with source which doesnt exist "
         +:+ "or isnt specified as a dependency with accessor '" +:+ accessor +:+ "'").
Definition MissingDataSource (name : string) : error :=
  Error ("Attempting to render with a data source fragment which doesnt exist "
         +:+ "in configuration (name " +:+ name +:+ ")").

Definition MAX_DEPTH : nat := 5.

(** [a || b] for a JavaScript array [a]: an array, even an empty one, is
    truthy, so the result is [a]. *)
Definition array_or {A : Type} (a b : list A) : list A := a.

(** [Object.assign(target, source)]: the properties of [source] are written
    over those of [target]. *)
Definition Object_assign (target source : gmap string value) : gmap string value :=
  source ∪ target.

(** The parsed attributes of an injection tag. *)
Record InjectAttributes := mkInjectAttributes {
  containsTemplate : bool;
  iterateOverDataName : option string;
  templateNameToInject : option string;
  specifiedRequired : bool;
  requiredSources : list string
}.

(** [_testInjectAttributes(regex, commandAttribs)] *)
Definition _testInjectAttributes (attribs : string) : InjectAttributes :=
  let sourcesMatch := regex_models attribs in
  {| containsTemplate := regex_template attribs;
     iterateOverDataName := regex_repeat attribs;
     templateNameToInject := regex_name attribs;
     specifiedRequired := regex_required attribs;
     requiredSources :=
       match sourcesMatch with
       | Some names => array_or (map trim (split_on "," names)) []
       | None => []
       end |}.

(** [_injectReplacements(sourceText, parts)] *)
Definition _injectReplacements (sourceText : value)
    (parts : list (nat * nat * value)) : error + string :=
  match sourceText with
  | VStr text =>
      let '(endOfMatches, lead) :=
        foldl (fun '(prevStart, acc) '(start, stop, part) =>
                 (stop, acc +:+ js_substring text prevStart start +:+ js_toString part))
              (0, EmptyString) parts in
      inr (lead +:+ js_substring_from text endOfMatches)
  | VNull => inl (TypeError "Cannot read property 'substring' of null")
  | VUndefined => inl (TypeError "Cannot read property 'substring' of undefined")
  | _ => inl (TypeError "sourceText.substring is not a function")
  end.

(** ** The effects of a request *)

(** The state of a request: the calls of the fetcher made so far, and what
    is left of the schedule. *)
Record World := mkWorld {
  calls : list FetchCall;
  schedule : list nat
}.

Definition record (call : FetchCall) (w : World) : World :=
  mkWorld (calls w ++ [call]) (schedule w).

(** The next number of the schedule; a schedule that is used up gives 0. *)
Definition next (w : World) : nat * World :=
  match schedule w with
  | [] => (0, w)
  | n :: rest => (n, mkWorld (calls w) rest)
  end.

(** A choice among [n] alternatives; the schedule is read only when there
    is more than one. *)
Definition choose (n : nat) (w : World) : nat * World :=
  match n with
  | 0 | 1 => (0, w)
  | _ => let '(k, w') := next w in (k mod n, w')
  end.

Arguments choose : simpl never.

(** *** Promises *)

(** A rendering that nobody awaits any more. A step runs it up to its next
    [await]; what remains of it, and what it leaves behind in turn, is the
    list the step returns. *)
Inductive Background : Type :=
| Running (resume : World -> list Background * World).

(** The promise of an async function: settled, or waiting to be resumed. A
    step runs the function up to its next [await] and yields the promise as
    it is then, with the renderings the step left behind. *)
Inductive Promise (A : Type) : Type :=
| Settled (result : error + A)
| Pending (resume : World -> Promise A * list Background * World).

Arguments Settled {A} result.
Arguments Pending {A} resume.

(** A promise that nobody will await: it goes on by itself. *)
Fixpoint abandon {A : Type} (p : Promise A) : list Background :=
  match p with
  | Settled _ => []
  | Pending resume =>
      [Running (fun w => let '(p', behind, w') := resume w in
                         (abandon p' ++ behind, w'))]
  end.

(** The promise a fetcher returned, which settles at a time of its own. *)
Definition pending {A : Type} (promise : error + A) : Promise A :=
  Pending (fun w => (Settled promise, [], w)).

(** Synchronous code within a request: it returns or throws, it may call
    the fetcher, and it may leave renderings behind. *)
Definition M (A : Type) : Type :=
  World -> (error + A) * list Background * World.

Definition ret {A : Type} (a : A) : M A := fun w => (inr a, [], w).

Definition throw {A : Type} (e : error) : M A := fun w => (inl e, [], w).

(** A value, or the error thrown instead. *)
Definition lift {A : Type} (r : error + A) : M A := fun w => (r, [], w).

Definition bind {A B : Type} (m : M A) (k : A -> M B) : M B :=
  fun w =>
    match m w with
    | (inl e, behind, w') => (inl e, behind, w')
    | (inr a, behind, w') =>
        let '(r, behind', w'') := k a w' in (r, behind ++ behind', w'')
    end.

Declare Scope render_scope.
Delimit Scope render_scope with render.
Notation "x <- m ;; k" := (bind m (fun x => k))
  (at level 100, m at next level, right associativity) : render_scope.
Notation "m ;;; k" := (bind m (fun _ => k))
  (at level 100, right associativity) : render_scope.

(** [f] on each element in turn; the first failure ends the traversal. *)
Fixpoint traverse {A B : Type} (f : A -> M B) (l : list A) : M (list B) :=
  match l with
  | [] => ret []
  | a :: rest =>
      (b <- f a ;;
       bs <- traverse f rest ;;
       ret (b :: bs))%render
  end.

(** The body of an async function, run from a call or from an [await] up
    to the next [await]: a value of [M (Promise A)] gives the promise of
    what remains; what is thrown on the way rejects it. *)
Definition enter {A : Type} (body : M (Promise A))
  : World -> Promise A * list Background * World :=
  fun w =>
    match body w with
    | (inl e, behind, w') => (Settled (inl e), behind, w')
    | (inr p, behind, w') => (p, behind, w')
    end.

(** [async function f(...) { body }], called. *)
Definition async {A : Type} (body : M (Promise A)) : M (Promise A) :=
  fun w => let '(p, behind, w') := enter body w in (inr p, behind, w').

(** [return a] at the end of an async function. *)
Definition resolve {A : Type} (a : A) : M (Promise A) := ret (Settled (inr a)).

(** [const a = await p; k a]: the function is suspended, and resumed with
    the value, or with the rejection thrown at the [await], once [p] is
    settled. *)
Fixpoint then_ {A B : Type} (p : Promise A) (k : A -> M (Promise B)) : Promise B :=
  match p with
  | Settled (inr a) => Pending (enter (k a))
  | Settled (inl e) => Pending (fun w => (Settled (inl e), [], w))
  | Pending resume =>
      Pending (fun w => let '(p', behind, w') := resume w in (then_ p' k, behind, w'))
  end.

(** [const a = await m; k a] where the expression [m] is evaluated first,
    and may itself throw. *)
Definition await {A B : Type} (m : M (Promise A)) (k : A -> M (Promise B))
  : M (Promise B) :=
  fun w =>
    match m w with
    | (inl e, behind, w') => (inl e, behind, w')
    | (inr p, behind, w') => (inr (then_ p k), behind, w')
    end.

(** The same for the promise of a fetcher. *)
Definition await_fetch {A B : Type} (m : M (error + A)) (k : A -> M (Promise B))
  : M (Promise B) :=
  fun w =>
    match m w with
    | (inl e, behind, w') => (inl e, behind, w')
    | (inr promise, behind, w') => (inr (then_ (pending promise) k), behind, w')
    end.

(** What a rejection does to a [try] block that is suspended at an
    [await]: the handler takes over. *)
Fixpoint catch_ {A : Type} (p : Promise A) (handler : error -> M (Promise A))
  : Promise A :=
  match p with
  | Settled (inr a) => Settled (inr a)
  | Settled (inl e) => Pending (enter (handler e))
  | Pending resume =>
      Pending (fun w => let '(p', behind, w') := resume w in
                        (catch_ p' handler, behind, w'))
  end.

(** [try { body } catch (error) { handler }] in an async function: what
    [body] throws before its first [await] is handled at once. *)
Definition try_catch {A : Type} (body : M (Promise A))
    (handler : error -> M (Promise A)) : M (Promise A) :=
  fun w =>
    match body w with
    | (inl e, behind, w') =>
        let '(r, behind', w'') := handler e w' in (r, behind ++ behind', w'')
    | (inr p, behind, w') => (inr (catch_ p handler), behind, w')
    end.

(** [p.then(f)] for a function [f] that neither throws nor awaits. *)
Fixpoint promise_map {A B : Type} (f : A -> B) (p : Promise A) : Promise B :=
  match p with
  | Settled (inr a) => Settled (inr (f a))
  | Settled (inl e) => Settled (inl e)
  | Pending resume =>
      Pending (fun w => let '(p', behind, w') := resume w in
                        (promise_map f p', behind, w'))
  end.

(** Two promises awaited together: each step resumes one of them, chosen
    by the schedule. The pair of the values when both are fulfilled; as soon
    as one is rejected the whole may be rejected with it, and the other,
    which nobody awaits then, is left behind. *)
Fixpoint both {A B : Type} (p : Promise A) : Promise B -> Promise (A * B) :=
  fix both_p (q : Promise B) : Promise (A * B) :=
    match p, q with
    | Settled (inr a), Settled (inr b) => Settled (inr (a, b))
    | Settled (inl e), Settled (inr _) => Settled (inl e)
    | Settled (inr _), Settled (inl e) => Settled (inl e)
    | Settled (inl e), Settled (inl e') =>
        Pending (fun w => let '(k, w') := choose 2 w in
                          (Settled (inl (match k with 0 => e | _ => e' end)), [], w'))
    | Settled (inr _), Pending resume_q =>
        Pending (fun w => let '(q', behind, w') := resume_q w in
                          (both_p q', behind, w'))
    | Settled (inl e), Pending resume_q =>
        Pending (fun w => let '(k, w0) := choose 2 w in
                          match k with
                          | 0 => (Settled (inl e), abandon q, w0)
                          | _ => let '(q', behind, w') := resume_q w0 in
                                 (both_p q', behind, w')
                          end)
    | Pending resume_p, Settled (inr _) =>
        Pending (fun w => let '(p', behind, w') := resume_p w in
                          (both p' q, behind, w'))
    | Pending resume_p, Settled (inl e) =>
        Pending (fun w => let '(k, w0) := choose 2 w in
                          match k with
                          | 0 => let '(p', behind, w') := resume_p w0 in
                                 (both p' q, behind, w')
                          | _ => (Settled (inl e), abandon p, w0)
                          end)
    | Pending resume_p, Pending resume_q =>
        Pending (fun w => let '(k, w0) := choose 2 w in
                          match k with
                          | 0 => let '(p', behind, w') := resume_p w0 in
                                 (both p' q, behind, w')
                          | _ => let '(q', behind, w') := resume_q w0 in
                                 (both_p q', behind, w')
                          end)
    end.

(** [Promise.all(promises)]: the values in the order of the list, or the
    rejection that comes first in time. *)
Fixpoint Promise_all {A : Type} (promises : list (Promise A)) : Promise (list A) :=
  match promises with
  | [] => Settled (inr [])
  | p :: rest => promise_map (fun '(a, values) => a :: values) (both p (Promise_all rest))
  end.

(** The rejections among the promises of a data object. *)
Definition rejections (dataObject : gmap string (error + value)) : list error :=
  omap (fun entry => match snd entry with inl e => Some e | inr _ => None end)
       (map_to_list dataObject).

(** The values of the fulfilled promises of a data object. *)
Definition fulfilled (dataObject : gmap string (error + value)) : gmap string value :=
  omap (fun p => match p with inr v => Some v | inl _ => None end) dataObject.

(** [Promise.props(dataObject)] on the promises of a fetcher: the object of
    their values, or the rejection that comes first in time. *)
Definition Promise_props (dataObject : gmap string (error + value))
  : Promise (gmap string value) :=
  Pending (fun w =>
    match rejections dataObject with
    | [] => (Settled (inr (fulfilled dataObject)), [], w)
    | e :: es =>
        let '(k, w') := choose (length (e :: es)) w in
        (Settled (inl (nth k (e :: es) e)), [], w')
    end).

(** Async functions called one after the other, as by [array.map] or in a
    loop, each running up to its first [await]. When one of the calls throws,
    the promises of the earlier ones are never awaited. *)
Fixpoint launch_each {A B : Type} (f : A -> M (Promise B)) (l : list A)
  : M (list (Promise B)) :=
  match l with
  | [] => ret []
  | a :: rest =>
      fun w =>
        match f a w with
        | (inl e, behind, w') => (inl e, behind, w')
        | (inr p, behind, w') =>
            match launch_each f rest w' with
            | (inl e, behind', w'') => (inl e, behind ++ abandon p ++ behind', w'')
            | (inr ps, behind', w'') => (inr (p :: ps), behind ++ behind', w'')
            end
        end
  end.

(** [Promise.all(l.map(f))] for an async function [f]. *)
Definition all_of {A B : Type} (f : A -> M (Promise B)) (l : list A)
  : M (Promise (list B)) :=
  fun w =>
    match launch_each f l w with
    | (inl e, behind, w') => (inl e, behind, w')
    | (inr ps, behind, w') => (inr (Promise_all ps), behind, w')
    end.

(** *** Running a request *)

(** One step of the rendering at position [k] among those left behind. *)
Definition advance (k : nat) (pool : list Background) (w : World)
  : list Background * World :=
  match pool !! k with
  | Some (Running resume) =>
      let '(successors, w') := resume w in
      (take k pool ++ successors ++ drop (S k) pool, w')
  | None => (pool, w)
  end.

Fixpoint advance_times (n : nat) (pool : list Background) (w : World)
  : list Background * World :=
  match n with
  | 0 => (pool, w)
  | S n' =>
      match pool with
      | [] => (pool, w)
      | _ :: _ =>
          let '(k, w1) := choose (length pool) w in
          let '(pool', w2) := advance k pool w1 in
          advance_times n' pool' w2
      end
  end.

(** What the renderings left behind do while a promise waits: as many of
    their steps as the schedule says. *)
Definition interleave (pool : list Background) (w : World) : list Background * World :=
  match pool with
  | [] => ([], w)
  | _ :: _ => let '(n, w1) := next w in advance_times n pool w1
  end.

(** A promise awaited to its end, beside the renderings of [pool]: the
    outcome, the renderings that are still running and the state of the
    request when it settles. *)
Fixpoint run {A : Type} (p : Promise A) (pool : list Background) (w : World)
  : (error + A) * list Background * World :=
  match p with
  | Settled result => (result, pool, w)
  | Pending resume =>
      let '(pool1, w1) := interleave pool w in
      let '(p', behind, w2) := resume w1 in
      run p' (pool1 ++ behind) w2
  end.

(** A call awaited by the caller of the library, with nothing else going
    on. *)
Definition perform {A : Type} (call : M (Promise A)) (w : World)
  : (error + A) * list Background * World :=
  match call w with
  | (inl e, behind, w') => (inl e, behind, w')
  | (inr p, behind, w') => run p behind w'
  end.

(** The outcomes a promise can settle with, whatever happens around it. *)
Inductive yields {A : Type} : Promise A -> error + A -> Prop :=
| yields_settled result : yields (Settled result) result
| yields_resumed resume w p' behind w' result :
    resume w = (p', behind, w') ->
    yields p' result ->
    yields (Pending resume) result.

(** The outcomes the promise of a call can settle with. *)
Definition may_yield {A : Type} (call : M (Promise A)) (result : error + A) : Prop :=
  exists w p behind w', call w = (inr p, behind, w') /\ yields p result.

(** ** Urls ([lib/Url.js]) *)

(** Every character of [s] satisfies [p]. *)
Fixpoint all_chars (p : ascii -> bool) (s : string) : bool :=
  match s with
  | EmptyString => true
  | String c s' => p c && all_chars p s'
  end.

(** [c] does not occur in [s]. *)
Definition without_char (c : ascii) (s : string) : bool :=
  all_chars (fun x => negb (Ascii.eqb x c)) s.

(** [parts.join(sep)] for an array of strings. *)
Fixpoint join (sep : string) (parts : list string) : string :=
  match parts with
  | [] => EmptyString
  | [x] => x
  | x :: rest => x +:+ sep +:+ join sep rest
  end.

(** [array.map(f)] for an [f] that may throw: the first failure ends it. *)
Fixpoint map_throwing {A B : Type} (f : A -> error + B) (l : list A) : error + list B :=
  match l with
  | [] => inr []
  | a :: rest =>
      match f a with
      | inl e => inl e
      | inr b =>
          match map_throwing f rest with
          | inl e => inl e
          | inr bs => inr (b :: bs)
          end
      end
  end.

(** The function mapped over the sections in [_insertPathInterpolations]:
    [const [part, keyName] = section;
     const replacement = keyName ? params[keyName] : '';
     return part + replacement;]
    where [params] may be undefined, and is a plain object otherwise. *)
Definition interpolate_section (params : option (gmap string value))
    (section : list string) : error + string :=
  match section with
  | [] => inr "undefined"
  | part :: rest =>
      match rest with
      | [] => inr (part +:+ EmptyString)
      | keyName :: _ =>
          if String.eqb keyName EmptyString then inr (part +:+ EmptyString)
          else
            match params with
            | None =>
                inl (TypeError ("Cannot read property '" +:+ keyName +:+ "' of undefined"))
            | Some properties =>
                inr (part +:+ match js_get properties keyName with
                              | Own v => js_toString v
                              | Inherited name => inherited_toString name
                              | Absent => "undefined"
                              end)
            end
      end
  end.

(** [_insertPathInterpolations(sections, params)] *)
Definition _insertPathInterpolations (sections : list (list string))
    (params : option (gmap string value)) : error + string :=
  match map_throwing (interpolate_section params) sections with
  | inl e => inl e
  | inr parts => inr (join "/" parts)
  end.

(** [_applyParameters(params, templatePath)] *)
Definition _applyParameters (params : option (gmap string value))
    (templatePath : string) : error + string :=
  _insertPathInterpolations (map (split_on ":") (split_on "/" templatePath)) params.

(** The request context, as far as a url reads it: [context.params]. *)
Record Context := mkContext {
  params : option (gmap string value)
}.

(** The base of a remote url: a string, or an object [{url, authorization}]. *)
Inductive BasePath : Type :=
| BaseString (path : string)
| BaseObject (url : string) (authorization : value).

(** The relative part of a remote url: undefined, a string, or a function
    of the context and the base. *)
Inductive RelativePart : Type :=
| RelativeUndefined
| RelativeString (path : string)
| RelativeFunction (f : Context -> string -> string).

Record RemoteUrl := mkRemoteUrl {
  _base : string;
  _authorization : value;
  _relative : RelativePart
}.

(** [new RemoteUrl(basePath, relativePart)] *)
Definition new_RemoteUrl (basePath : BasePath) (relativePart : RelativePart) : RemoteUrl :=
  {| _base := match basePath with
              | BaseString path => path
              | BaseObject url _ => url
              end;
     _authorization := match basePath with
                       | BaseString _ => VUndefined
                       | BaseObject _ authorization => authorization
                       end;
     _relative := relativePart |}.

Section Urls.

(** [url.resolve(from, to)] of Node. *)
Variable url_resolve : string -> string -> string.

(** [RemoteUrl.resolve(context)] *)
Definition RemoteUrl_resolve (u : RemoteUrl) (context : Context) : error + string :=
  let base := _base u in
  let template :=
    match _relative u with
    | RelativeFunction f => Some (f context base)
    | RelativeString path => Some path
    | RelativeUndefined => None
    end in
  match template with
  | None => inr base
  | Some template =>
      if String.eqb template EmptyString then inr base
      else
        match _applyParameters (params context) template with
        | inl e => inl e
        | inr path => inr (url_resolve base path)
        end
  end.

End Urls.

(** ** The method of a route ([lib/Route.js]) *)

(** [c.toLowerCase()] on a code unit below 256. *)
Definition lower_char (c : ascii) : ascii :=
  let n := nat_of_ascii c in
  if (((65 <=? n) && (n <=? 90))
      || ((192 <=? n) && (n <=? 222) && negb (n =? 215)))%nat
  then ascii_of_nat (n + 32) else c.

(** [s.toLowerCase()] *)
Fixpoint toLowerCase (s : string) : string :=
  match s with
  | EmptyString => EmptyString
  | String c s' => String (lower_char c) (toLowerCase s')
  end.

(** The constructor of [Route]:
    [this._method = options.method && options.method.toLowerCase()]. *)
Definition new_Route_method (options_method : option string) : option string :=
  match options_method with
  | None => None
  | Some m => if String.eqb m EmptyString then Some m else Some (toLowerCase m)
  end.

(** [get method() { return this._method || 'get'; }] *)
Definition Route_method (_method : option string) : string :=
  match _method with
  | None => "get"
  | Some m => if String.eqb m EmptyString then "get" else m
  end.

(** ** Orderings of matches *)

(** The matches lie one after the other from [bound] on, none empty. *)
Fixpoint ascending (bound : nat) (matches : list TagMatch) : Prop :=
  match matches with
  | [] => True
  | m :: rest =>
      bound <= matchIndex m /\ matchIndex m < lastIndex m /\ ascending (lastIndex m) rest
  end.

(** What the tag expression reports about a match. *)
Definition well_formed_match (text_length : nat) (m : TagMatch) : Prop :=
  lastIndex m <= text_length
  /\ lastIndex m = matchIndex m + (String.length open_tag
                                   + String.length (commandAttribs m) + 1
                                   + String.length (embeddedTemplate m)
                                   + String.length close_tag)
  /\ commandAttribs m <> EmptyString
  /\ without_char ">" (commandAttribs m) = true.

(** Each match, replaced by the text it matched. *)
Definition replaced_by_itself (text : string) (m : TagMatch) : nat * nat * value :=
  (matchIndex m, lastIndex m, VStr (js_substring text (matchIndex m) (lastIndex m))).

(** The characters a captured attribute value is made of: neither blank
    nor [>]. *)
Definition value_char (c : ascii) : bool := negb (is_space c || is_gt c).

(** ** Sample collaborators

    Instances of the three parameters of the compositor, used to run it on
    concrete routes. *)

(** The fetcher of the test suite,
    [(fragment) => Promise.resolve(new FragmentBody(fragment.localData))]. *)
Definition localDataFetcher (earlier : list FetchCall) (call : FetchCall) : Answer :=
  match call_fragment call with
  | Own f => Returns (inr (new_FragmentBody (localData f) VUndefined))
  | Inherited _ => Returns (inr (new_FragmentBody VUndefined VUndefined))
  | Absent => Throws (TypeError "Cannot read property 'localData' of undefined")
  end.

Definition fetch_failure : error := Error "Failed to fetch".

(** The fetcher of the test suite that rejects every call,
    [() => Promise.reject(e)]. *)
Definition rejectingFetcher (earlier : list FetchCall) (call : FetchCall) : Answer :=
  Returns (inl fetch_failure).

(** A fetcher for which every fragment with a [url] is out of reach, in the
    manner of [localFileFetcher] of the test suite: the failure is thrown for
    a required fragment and replaced by the missing-content message
    otherwise; with [neverHandleError] it is handed back as the body. *)
Definition unreachableFetcher (earlier : list FetchCall) (call : FetchCall) : Answer :=
  match call_fragment call with
  | Absent => Throws (TypeError "Cannot read property 'isRequired' of undefined")
  | Inherited _ => Throws (TypeError "fragment.contentMissingMessage is not a function")
  | Own f =>
      match _url f with
      | None => Returns (inr (new_FragmentBody (localData f) VUndefined))
      | Some _ =>
          match call_neverHandleError call with
          | Some true => Returns (inr (new_FragmentBody (VError fetch_failure) VUndefined))
          | _ =>
              if isRequired f then Throws fetch_failure
              else
                match contentMissingMessage f (VError fetch_failure) with
                | VObj fields =>
                    Returns (inr (mkFragmentBody (field "body" fields)
                                                 (field "contentType" fields)))
                | other => Returns (inr (new_FragmentBody other VUndefined))
                end
          end
      end
  end.

(** A fetcher whose answer depends on the calls made before: the content
    type it reports is the number of earlier calls. *)
Definition countingFetcher (earlier : list FetchCall) (call : FetchCall) : Answer :=
  match call_fragment call with
  | Own f => Returns (inr (mkFragmentBody (localData f) (VNum (Z.of_nat (length earlier)))))
  | Inherited _ => Returns (inr (mkFragmentBody VUndefined (VNum (Z.of_nat (length earlier)))))
  | Absent => Throws (TypeError "Cannot read property 'localData' of undefined")
  end.

Definition item_template : string := "[[=model.current]]".

Fixpoint has_opening_brackets (s : string) : bool :=
  match ci_strip "[[" s with
  | Some _ => true
  | None =>
      match s with
      | EmptyString => false
      | String _ s' => has_opening_brackets s'
      end
  end.

(** The part of the template engine the examples need: a text without an
    opening pair of brackets is rendered as it is, and the template
    [item_template], the interpolation of [model.current], is the string of
    the [current] property of the data. *)
Definition sample_dot (str : value) (data : gmap string value) : error + string :=
  match str with
  | VStr text =>
      if String.eqb text item_template
      then inr (js_toString (default VUndefined (data !! "current")))
      else if has_opening_brackets text
           then inl (Error "template outside the sample engine")
           else inr text
  | _ => inl (TypeError "tmpl.replace is not a function")
  end.

Fixpoint get_in (v : value) (keys : list string) : value :=
  match keys with
  | [] => v
  | key :: rest =>
      match v with
      | VObj fields => get_in (field key fields) rest
      | _ => VUndefined
      end
  end.

(** [getProperty] for a dotted path of plain property names. *)
Definition sample_getProperty (object : gmap string value) (path : string) : value :=
  match split_on "." path with
  | [] => VUndefined
  | key :: rest =>
      match object !! key with
      | Some v => get_in v rest
      | None => VUndefined
      end
  end.

(** [Fragment.base(options)()]: the base fragment is required. *)
Definition base (data : value) : Fragment :=
  {| _url := None; _data := data; _bodyType := None; _requiredData := None;
     _required := true;
     _contentMissingMessage := MsgValue VUndefined;
     _contentRenderErrorMessage := MsgValue VUndefined |}.

(** An optional fragment with inline data, and one behind a [url]. *)
Definition inline (bodyType : string) (data : value) : Fragment :=
  {| _url := None; _data := data; _bodyType := Some bodyType; _requiredData := None;
     _required := false;
     _contentMissingMessage := MsgValue VUndefined;
     _contentRenderErrorMessage := MsgValue VUndefined |}.

Definition remote (url : string) : Fragment :=
  {| _url := Some url; _data := VUndefined; _bodyType := Some "json";
     _requiredData := None; _required := false;
     _contentMissingMessage := MsgValue VUndefined;
     _contentRenderErrorMessage := MsgValue VUndefined |}.

(** An engine that reports the template and the names of the data it is
    given; it makes the data context of a rendering visible. *)
Definition probe_dot (str : value) (data : gmap string value) : error + string :=
  inr (js_toString str +:+ ":" +:+ String.concat "," (map fst (map_to_list data))).

(** *** Sample routes *)

(** The example of the design: a base template that injects [greeter]. *)
Definition greeter_route : Route :=
  mkRoute (base (VStr "<fragment-inject fragment-name='greeter' template></fragment-inject>"))
          {[ "greeter" := inline "html" (VStr "Hello") ]}.

(** A fragment that injects itself. *)
Definition inject_loop : string :=
  "<fragment-inject fragment-name='loop'></fragment-inject>".

Definition cycle_route : Route :=
  mkRoute (base (VStr inject_loop))
          {[ "loop" := inline "html" (VStr ("(" +:+ inject_loop +:+ ")")) ]}.

(** An optional fragment [outer] whose template requires [inner]; the
    template of [inner] names a fragment that does not exist. *)
Definition nested_required_route : Route :=
  mkRoute (base (VStr "A<fragment-inject fragment-name='outer'></fragment-inject>B"))
    {[ "outer" := inline "html"
         (VStr "<fragment-inject fragment-name='inner' required></fragment-inject>");
       "inner" := inline "html"
         (VStr "<fragment-inject fragment-name='ghost'></fragment-inject>") ]}.



(** A base template whose only tag names a member of [Object.prototype]. *)
Definition inherited_name_route : Route :=
  mkRoute (base (VStr "A<fragment-inject fragment-name='constructor'></fragment-inject>B"))
          ∅.

(** A list rendered once per item; the source of the list is called
    [name]. *)
Definition items : value := VObj [("items", VArr [VStr "a"; VStr "b"])].



Definition list_route (name : string) (data : value) : Route :=
  mkRoute (base (VStr ("<ul><fragment-inject template models='" +:+ name
                       +:+ "' fragment-repeat='" +:+ name +:+ ".items'>"
                       +:+ item_template +:+ "</fragment-inject></ul>")))
          {[ name := inline "json" data ]}.

Definition repeat_route (name : string) : Route := list_route name items.

(** A list whose source is behind a [url]. *)
Definition unreachable_route : Route :=
  mkRoute (base (VStr ("<ul><fragment-inject template models='data' "
                       +:+ "fragment-repeat='data.items'>x</fragment-inject></ul>")))
          {[ "data" := remote "http://backend/items" ]}.

(** A repetition over a source that the tag does not list, optional and
    required. *)
Definition unlisted_repeat_route (flags : string) : Route :=
  mkRoute (base (VStr ("A<fragment-inject template" +:+ flags
                       +:+ " fragment-repeat='data.list'>x</fragment-inject>B")))
          ∅.

(** A fragment that declares the data it needs, injected by a tag with the
    given further attributes. *)
Definition card : Fragment :=
  {| _url := None; _data := VStr "card"; _bodyType := Some "html";
     _requiredData := Some ["dataModel"]; _required := false;
     _contentMissingMessage := MsgValue VUndefined;
     _contentRenderErrorMessage := MsgValue VUndefined |}.

Definition card_route (attributes : string) : Route :=
  mkRoute (base (VStr ("<fragment-inject fragment-name='card'" +:+ attributes
                       +:+ "></fragment-inject>")))
          {[ "card" := card; "dataModel" := inline "json" items ]}.

(** A route whose base fragment has neither a url nor data. *)
Definition undefined_base_route : Route := mkRoute (base VUndefined) ∅.

(** *** Sample requests *)

(** A request at its start: no call made yet. *)
Definition request (schedule : list nat) : World := mkWorld [] schedule.

(** The call of the fetcher for the base template of a route, and for a
    template. *)
Definition base_call (route : Route) : FetchCall :=
  mkFetchCall (Own (baseTemplate route)) None.

Definition template_fetch (f : Fragment) : FetchCall := mkFetchCall (Own f) None.

(** ** The manager and the renderer *)

Section Compositor.

(** [fragmentFetcher]: its answer to a call, given the calls made before. *)
Variable fetcher : list FetchCall -> FetchCall -> Answer.

(** [dotEngine.template(str)(dataForView)] *)
Variable dotTemplate : value -> gmap string value -> error + string.

(** [getProperty(object, path)] of [lodash.get] *)
Variable getProperty : gmap string value -> string -> value.

(** [this._fetch(fragment, this._context, options)]: the call is recorded;
    it throws, or returns the promise of the fetcher. *)
Definition _fetch (fragment : Property Fragment) (neverHandleError : option bool)
  : M (error + FragmentBody) :=
  fun w =>
    let call := mkFetchCall fragment neverHandleError in
    match fetcher (calls w) call with
    | Throws e => (inl e, [], record call w)
    | Returns promise => (inr promise, [], record call w)
    end.

(** *** [FragmentManager] *)

Record FragmentManager := mkFragmentManager {
  _route : Route;
  _sourceFragments : gmap string Fragment
}.

(** [new FragmentManager(route, fragmentFetcher, context)] *)
Definition new_FragmentManager (route : Route) : FragmentManager :=
  {| _route := route; _sourceFragments := fragments route |}.

Definition _fetchBase (manager : FragmentManager) : M (error + FragmentBody) :=
  _fetch (Own (baseTemplate (_route manager))) None.

Definition baseBody (manager : FragmentManager) : M (error + value) :=
  (promise <- _fetchBase manager ;; ret (then_body promise))%render.

Definition baseContentType (manager : FragmentManager) : M (error + value) :=
  (promise <- _fetchBase manager ;; ret (then_contentType promise))%render.

Definition fetchFragmentBody (manager : FragmentManager) (template : Property Fragment)
  : M (error + value) :=
  (promise <- _fetch template None ;; ret (then_body promise))%render.

(** [fragmentBody(name, options)]: the fetcher is handed whatever
    [this._sourceFragments[name]] is. *)
Definition fragmentBody (manager : FragmentManager) (name : string)
    (neverHandleError : option bool) : M (error + value) :=
  (promise <- _fetch (js_get (_sourceFragments manager) name) neverHandleError ;;
   ret (then_body promise))%render.

(** [fragment(name) { return this._sourceFragments[name]; }] *)
Definition fragment (manager : FragmentManager) (name : string) : Property Fragment :=
  js_get (_sourceFragments manager) name.

(** [hasFragment(name) { return !!this._sourceFragments[name]; }] *)
Definition hasFragment (manager : FragmentManager) (name : string) : bool :=
  has_property (_sourceFragments manager) name.

(** *** [Renderer] *)

(** [toInject.isRequired], where [toInject] is what [fragment(name)] gave. *)
Definition is_required (toInject : Property Fragment) : bool :=
  match toInject with
  | Own f => isRequired f
  | Inherited _ | Absent => false
  end.

Section Renderer.

(** [this._manager] *)
Variable manager : FragmentManager.

(** In the definitions below [recur] stands for
    [body => this.renderRecursive(body, currentDepth + 1)]. *)

(** [_renderFragmentPart(currentDepth, fragmentBody, dataForView)] *)
Definition _renderFragmentPart (recur : value -> M (Promise value))
    (fragmentContent : value) (dataForView : gmap string value) : M (Promise string) :=
  async
    (try_catch
       (await (recur fragmentContent) (fun str =>
          (text <- lift (dotTemplate str dataForView) ;; resolve text)%render))
       (fun error => throw (FragmentRenderError error))).

(** The function mapped over [requiredSources] in [_renderFragment]: a name
    that is no fragment is an error; else the fetch of the source is
    started. *)
Definition fetch_source (repeatedDataNameFragName : option string) (name : string)
  : M (string * (error + value)) :=
  if negb (hasFragment manager name) then
    throw (FragmentRenderError (MissingDataSource name))
  else
    (promise <- fragmentBody manager name
                  (Some (bool_decide (repeatedDataNameFragName = Some name))) ;;
     ret (name, promise))%render.

(** [.reduce((acc, [key, promise]) => { acc[key] = promise; return acc; }, {})];
    an assignment to the key [__proto__] creates no property. *)
Definition collect_sources (entries : list (string * (error + value)))
  : gmap string (error + value) :=
  foldl (fun acc entry =>
           if String.eqb (fst entry) "__proto__" then acc
           else <[fst entry := snd entry]> acc)
        ∅ entries.

(** The branch [if (dataBody && dataBody.length) ... else ''] of
    [_renderFragment]. *)
Definition render_repeated (recur : value -> M (Promise value)) (fragmentContent : value)
    (sources : gmap string value) (dataBody : value) : M (Promise value) :=
  match dataBody with
  | VArr (d :: ds) =>
      await (all_of (fun d => _renderFragmentPart recur fragmentContent
                                (Object_assign {["current" := d]} sources))
                    (d :: ds))
            (fun data => resolve (VStr (String.concat EmptyString data)))
  | VStr (String _ _) => throw (TypeError "dataBody.map is not a function")
  | VObj fields =>
      if truthy (field "length" fields)
      then throw (TypeError "dataBody.map is not a function")
      else resolve (VStr EmptyString)
  | _ => resolve (VStr EmptyString)
  end.


(** The check of the source of a repetition, at the head of the [try]
    block of [_renderFragment]. *)
Definition check_repeat_source (requiredSources : list string)
    (repeatedDataName : option string) : M unit :=
  match repeatedDataName with
  | Some accessor =>
      let repeatedDataNameFragName := hd EmptyString (split_on "." accessor) in
      let repeatedDataNameFragment := hasFragment manager repeatedDataNameFragName in
      if negb repeatedDataNameFragment
         || negb (bool_decide (repeatedDataNameFragName ∈ requiredSources))
      then throw (FragmentRenderError (InvalidRepeatSource accessor))
      else ret tt
  | None => ret tt
  end.

(** The [try] block of [_renderFragment]. *)
Definition _renderFragment_try (recur : value -> M (Promise value))
    (fragmentContent : value) (requiredSources : list string)
    (repeatedDataName : option string) : M (Promise value) :=
  let repeatedDataNameFragName :=
    (fun accessor => hd EmptyString (split_on "." accessor)) <$> repeatedDataName in
  (check_repeat_source requiredSources repeatedDataName ;;;
   entries <- traverse (fetch_source repeatedDataNameFragName) requiredSources ;;
   await (ret (Promise_props (collect_sources entries))) (fun sources =>
     match repeatedDataName, repeatedDataNameFragName with
     | Some accessor, Some root =>
         match sources !! root with
         | Some (VError e) =>
             match fragment manager root with
             | Own source => resolve (contentMissingMessage source (VError e))
             | Inherited _ =>
                 throw (TypeError "this._manager.fragment(...).contentMissingMessage is not a function")
             | Absent =>
                 throw (TypeError "Cannot read property 'contentMissingMessage' of undefined")
             end
         | _ => render_repeated recur fragmentContent sources (getProperty sources accessor)
         end
     | _, _ =>
         await (_renderFragmentPart recur fragmentContent sources) (fun rendered =>
           resolve (VStr rendered))
     end))%render.

(** The [catch] block of [_renderFragment]. *)
Definition _renderFragment_catch (injectedFragment : Property Fragment) (required : bool)
    (error : error) : M (Promise value) :=
  if instanceof_FragmentRenderError error && negb required
  then
    match injectedFragment with
    | Own f =>
        resolve (js_or (contentRenderErrorMessage f (VError error)) (VStr EmptyString))
    | Inherited _ =>
        throw (TypeError "injectedFragment.contentRenderErrorMessage is not a function")
    | Absent =>
        throw (TypeError "Cannot read property 'contentRenderErrorMessage' of undefined")
    end
  else throw error.

(** [_renderFragment(currentDepth, injectedFragment, fragmentContent,
    isRequired, requiredSources, repeatedDataName)] *)
Definition _renderFragment (recur : value -> M (Promise value))
    (injectedFragment : Property Fragment) (fragmentContent : value) (required : bool)
    (requiredSources : list string) (repeatedDataName : option string)
  : M (Promise value) :=
  async
    (try_catch
       (_renderFragment_try recur fragmentContent requiredSources repeatedDataName)
       (_renderFragment_catch injectedFragment required)).

(** The data dependencies [_boundFragmentRender] hands to [_renderFragment]:
    [requiredSources || toInject.requiredData]. *)
Definition effective_sources (requiredSources : list string)
    (toInject : Property Fragment) : list string :=
  array_or requiredSources
    (match toInject with Own f => requiredData f | _ => [] end).

(** [_boundFragmentRender] from its first [await] on, once the body of
    the template is there. *)
Definition _boundFragmentRender_resume (recur : value -> M (Promise value))
    (toInject : Property Fragment) (specifiedRequired : bool)
    (requiredSources : list string) (repeatedDataName : option string)
    (matchIndex lastIndex : nat) (content : value) : M (Promise (nat * nat * value)) :=
  match toInject with
  | Absent => throw (TypeError "Cannot read property 'isRequired' of undefined")
  | _ =>
      await (_renderFragment recur toInject content
               (is_required toInject || specifiedRequired)
               (effective_sources requiredSources toInject)
               repeatedDataName)
            (fun rendered => resolve (matchIndex, lastIndex, rendered))
  end.

(** [_boundFragmentRender(currentDepth, toInject, isRequired, requiredSources,
    repeatedDataName, matchIndex, lastIndex)]: the call itself starts the
    fetch of the template. *)
Definition _boundFragmentRender (recur : value -> M (Promise value))
    (toInject : Property Fragment) (specifiedRequired : bool)
    (requiredSources : list string) (repeatedDataName : option string)
    (matchIndex lastIndex : nat) : M (Promise (nat * nat * value)) :=
  async
    (await_fetch (fetchFragmentBody manager toInject)
       (_boundFragmentRender_resume recur toInject specifiedRequired requiredSources
          repeatedDataName matchIndex lastIndex)).

(** The choice of the template of one match, in [renderRecursive]. *)
Definition resolve_template (attributes : InjectAttributes) (embeddedTemplate : string)
  : error + Property Fragment :=
  match templateNameToInject attributes with
  | Some name =>
      if negb (hasFragment manager name) then inl (UnknownFragmentReference name)
      else inr (fragment manager name)
  | None =>
      if containsTemplate attributes
      then inr (Own (html (specifiedRequired attributes) (VStr embeddedTemplate)))
      else inl MissingTemplateSpecification
  end.

(** One turn of the loop of [renderRecursive]: the match is parsed, its
    template chosen and its rendering started. *)
Definition launch (recur : value -> M (Promise value)) (m : TagMatch)
  : M (Promise (nat * nat * value)) :=
  let attributes := _testInjectAttributes (commandAttribs m) in
  (template <- lift (resolve_template attributes (embeddedTemplate m)) ;;
   _boundFragmentRender recur template
     (specifiedRequired attributes) (requiredSources attributes)
     (iterateOverDataName attributes) (matchIndex m) (lastIndex m))%render.

(** [renderRecursive(fragmentBody, currentDepth)] below the depth check. The
    loop stops at the first match whose template cannot be chosen, and the
    call is rejected with it, the renderings started before being left
    behind; otherwise every rendering that was started is awaited. *)
Definition renderRecursive_step (recur : value -> M (Promise value))
    (fragmentBody : value) : M (Promise value) :=
  async
    match fragmentBody with
    | VUndefined => throw EmptyBody
    | _ =>
        await (all_of (launch recur) (exec_all (js_toString fragmentBody)))
              (fun renderedContent =>
                 (text <- lift (_injectReplacements fragmentBody renderedContent) ;;
                  resolve (VStr text))%render)
    end.

(** [renderRecursive] with [levels] depths left before [MAX_DEPTH] is
    passed. *)
Fixpoint renderRecursive_levels (levels : nat) (fragmentBody : value)
  : M (Promise value) :=
  match levels with
  | O => resolve fragmentBody
  | S n => renderRecursive_step (renderRecursive_levels n) fragmentBody
  end.

(** [renderRecursive(fragmentBody, currentDepth)]; [renderRecursive_eq]
    below shows that it satisfies the equation of the source. *)
Definition renderRecursive (fragmentBody : value) (currentDepth : nat)
  : M (Promise value) :=
  renderRecursive_levels (S MAX_DEPTH - currentDepth) fragmentBody.

End Renderer.

(** *** [render] ([lib/render.js]) *)

Definition render (route : Route) : M (Promise FragmentBody) :=
  let manager := new_FragmentManager route in
  async
    (await_fetch (baseBody manager) (fun baseBody =>
     await_fetch (baseContentType manager) (fun contentType =>
     await (renderRecursive manager baseBody 1) (fun body =>
     resolve (new_FragmentBody body contentType))))).

(** *** The parts of the renderer that the properties name *)

(** The template of a match, and the call of the fetcher that starts its
    rendering. *)
Definition template_of manager (m : TagMatch) : error + Property Fragment :=
  resolve_template manager (_testInjectAttributes (commandAttribs m)) (embeddedTemplate m).

Definition template_call manager (m : TagMatch) : list FetchCall :=
  match template_of manager m with
  | inr template => [mkFetchCall template None]
  | inl _ => []
  end.

(** What the rendering of a match does once the body of its template is
    there. *)
Definition resume_match manager recur (m : TagMatch) (template : Property Fragment)
  : value -> M (Promise (nat * nat * value)) :=
  let attributes := _testInjectAttributes (commandAttribs m) in
  _boundFragmentRender_resume manager recur template
    (specifiedRequired attributes) (requiredSources attributes)
    (iterateOverDataName attributes) (matchIndex m) (lastIndex m).

(** What [renderRecursive] does with a text below the ceiling: the loop
    over the matches, and the promise of the rest. *)
Definition inject (fragmentBody : value) (renderedContent : list (nat * nat * value))
  : M (Promise value) :=
  (text <- lift (_injectReplacements fragmentBody renderedContent) ;;
   resolve (VStr text))%render.

(** What the [catch] block of [_renderFragment] makes of a failure: the
    render-error message of the fragment for a [FragmentRenderError] when the
    fragment is not required, the failure itself otherwise. *)
Definition recovered (injectedFragment : Property Fragment) (required : bool)
    (failure : error) : error + value :=
  if instanceof_FragmentRenderError failure && negb required
  then
    match injectedFragment with
    | Own f => inr (contentRenderErrorMessage f (VError failure))
    | Inherited _ =>
        inl (TypeError "injectedFragment.contentRenderErrorMessage is not a function")
    | Absent =>
        inl (TypeError "Cannot read property 'contentRenderErrorMessage' of undefined")
    end
  else inl failure.

(** The two continuations of [_renderFragmentPart]. *)
Definition evaluate (dataForView : gmap string value) (str : value) : M (Promise string) :=
  (text <- lift (dotTemplate str dataForView) ;; resolve text)%render.

Definition wrap (failure : error) : M (Promise string) :=
  throw (FragmentRenderError failure).

(** The fetches of the data dependencies. *)
Definition source_call manager root (name : string) : FetchCall :=
  mkFetchCall (js_get (_sourceFragments manager) name)
              (Some (bool_decide (root = Some name))).



(** * Properties *)

(** ** Promises *)

(** Induction on a promise: a pending promise has the property when the
    promise it becomes has it, whatever the state it is resumed in. *)
Section Promise_induction.

Variable A : Type.
Variable P : Promise A -> Prop.
Hypothesis P_settled : forall result, P (Settled result).
Hypothesis P_pending :
  forall resume, (forall w, P (fst (fst (resume w)))) -> P (Pending resume).

Fixpoint Promise_induction (p : Promise A) : P p :=
  match p with
  | Settled result => P_settled result
  | Pending resume => P_pending resume (fun w => Promise_induction (fst (fst (resume w))))
  end.

End Promise_induction.

Lemma interleave_nil (w : World) : interleave [] w = ([], w).
Proof. reflexivity. Qed.

Lemma run_pending_step {A : Type} (resume : World -> Promise A * list Background * World)
    pool w pool1 w1 p' behind w2 :
  interleave pool w = (pool1, w1) ->
  resume w1 = (p', behind, w2) ->
  run (Pending resume) pool w = run p' (pool1 ++ behind) w2.
Proof. intros Hi Hr. simpl. rewrite Hi, Hr. reflexivity. Qed.

(** Awaiting a promise and going on with [k]: the promise is awaited to its
    end, the function is resumed, and [k] runs up to its next [await]. *)
Lemma run_then {A B : Type} (p : Promise A) (k : A -> M (Promise B)) pool w :
  run (then_ p k) pool w =
  let '(result, pool', w') := run p pool w in
  let '(pool1, w1) := interleave pool' w' in
  match result with
  | inl e => (inl e, pool1, w1)
  | inr a => let '(q, behind, w2) := enter (k a) w1 in run q (pool1 ++ behind) w2
  end.
Proof.
  revert pool w. induction p as [[e|a]|resume IH] using Promise_induction; intros pool w.
  - simpl. destruct (interleave pool w) as [pool1 w1]. rewrite app_nil_r. reflexivity.
  - simpl. destruct (interleave pool w) as [pool1 w1]. reflexivity.
  - simpl. destruct (interleave pool w) as [pool1 w1].
    specialize (IH w1). destruct (resume w1) as [[p' behind] w2]. simpl in IH.
    apply IH.
Qed.

Lemma run_catch {A : Type} (p : Promise A) (handler : error -> M (Promise A)) pool w :
  run (catch_ p handler) pool w =
  let '(result, pool', w') := run p pool w in
  match result with
  | inr a => (inr a, pool', w')
  | inl e =>
      let '(pool1, w1) := interleave pool' w' in
      let '(q, behind, w2) := enter (handler e) w1 in run q (pool1 ++ behind) w2
  end.
Proof.
  revert pool w. induction p as [[e|a]|resume IH] using Promise_induction; intros pool w.
  - reflexivity.
  - reflexivity.
  - simpl. destruct (interleave pool w) as [pool1 w1].
    specialize (IH w1). destruct (resume w1) as [[p' behind] w2]. simpl in IH.
    apply IH.
Qed.

Lemma run_promise_map {A B : Type} (f : A -> B) (p : Promise A) pool w :
  run (promise_map f p) pool w =
  let '(result, pool', w') := run p pool w in
  (match result with inl e => inl e | inr a => inr (f a) end, pool', w').
Proof.
  revert pool w. induction p as [[e|a]|resume IH] using Promise_induction; intros pool w.
  - reflexivity.
  - reflexivity.
  - simpl. destruct (interleave pool w) as [pool1 w1].
    specialize (IH w1). destruct (resume w1) as [[p' behind] w2]. simpl in IH.
    apply IH.
Qed.

Lemma run_both_fulfilled {A B : Type} (p : Promise A) (b : B) pool w :
  run (both p (Settled (inr b))) pool w =
  let '(result, pool', w') := run p pool w in
  (match result with inl e => inl e | inr a => inr (a, b) end, pool', w').
Proof.
  revert pool w. induction p as [[e|a]|resume IH] using Promise_induction; intros pool w.
  - reflexivity.
  - reflexivity.
  - simpl. destruct (interleave pool w) as [pool1 w1].
    specialize (IH w1). destruct (resume w1) as [[p' behind] w2]. simpl in IH.
    apply IH.
Qed.

(** A single promise awaited through [Promise.all]. *)
Lemma run_Promise_all_single {A : Type} (p : Promise A) pool w :
  run (Promise_all [p]) pool w =
  let '(result, pool', w') := run p pool w in
  (match result with inl e => inl e | inr a => inr [a] end, pool', w').
Proof.
  simpl. rewrite run_promise_map, run_both_fulfilled.
  destruct (run p pool w) as [[[e|a] pool'] w']; reflexivity.
Qed.

Lemma perform_async {A : Type} (body : M (Promise A)) w :
  perform (async body) w = perform body w.
Proof.
  unfold perform, async, enter.
  destruct (body w) as [[[e|p] behind] w']; reflexivity.
Qed.

(** *** The outcomes of a promise *)

Lemma run_yields {A : Type} (p : Promise A) pool w result pool' w' :
  run p pool w = (result, pool', w') -> yields p result.
Proof.
  revert pool w. induction p as [r|resume IH] using Promise_induction; intros pool w.
  - simpl. intros H. injection H as <- _ _. constructor.
  - simpl. destruct (interleave pool w) as [pool1 w1].
    specialize (IH w1). destruct (resume w1) as [[p' behind] w2] eqn:Hr. simpl in IH.
    intros H. econstructor; [exact Hr|]. eapply IH. exact H.
Qed.

Lemma perform_may_yield {A : Type} (call : M (Promise A)) w result behind w' :
  perform (async call) w = (result, behind, w') -> may_yield (async call) result.
Proof.
  unfold perform, may_yield.
  destruct (async call w) as [[[e|p] behind0] w0] eqn:Hcall.
  - unfold async in Hcall. destruct (enter call w) as [[p b] w1]. discriminate.
  - intros Hrun. exists w, p, behind0, w0. split; [exact Hcall|].
    eapply run_yields. exact Hrun.
Qed.

Lemma yields_settled_inv {A : Type} (r result : error + A) :
  yields (Settled r) result -> result = r.
Proof. intros H. inversion H; subst. reflexivity. Qed.

Lemma yields_pending_inv {A : Type} (resume : World -> Promise A * list Background * World)
    result :
  yields (Pending resume) result ->
  exists w, yields (fst (fst (resume w))) result.
Proof.
  intros H. inversion H as [|? w ? ? ? ? Hstep Hrest]; subst.
  exists w. rewrite Hstep. exact Hrest.
Qed.

Lemma yields_step {A : Type} (resume : World -> Promise A * list Background * World)
    w result :
  yields (fst (fst (resume w))) result -> yields (Pending resume) result.
Proof.
  destruct (resume w) as [[p' behind] w'] eqn:Hr. simpl. intros H.
  econstructor; [exact Hr | exact H].
Qed.

Lemma yields_then {A B : Type} (p : Promise A) (k : A -> M (Promise B)) result :
  yields (then_ p k) result ->
  (exists e, yields p (inl e) /\ result = inl e)
  \/ (exists a w, yields p (inr a) /\ yields (fst (fst (enter (k a) w))) result).
Proof.
  induction p as [[e|a]|resume IH] using Promise_induction; simpl; intros H.
  - apply yields_pending_inv in H as [w H]. apply yields_settled_inv in H. subst result.
    left. exists e. split; constructor.
  - apply yields_pending_inv in H as [w H].
    right. exists a, w. split; [constructor | exact H].
  - apply yields_pending_inv in H as [w H].
    specialize (IH w). destruct (resume w) as [[p1 behind0] w0] eqn:Hr. simpl in IH, H.
    destruct (IH H) as [(e & Hp & ->) | (a & w1 & Hp & Hk)].
    + left. exists e. split; [|reflexivity]. econstructor; eauto.
    + right. exists a, w1. split; [|exact Hk]. econstructor; eauto.
Qed.

Lemma yields_catch {A : Type} (p : Promise A) (handler : error -> M (Promise A)) result :
  yields (catch_ p handler) result ->
  (exists a, yields p (inr a) /\ result = inr a)
  \/ (exists e w, yields p (inl e) /\ yields (fst (fst (enter (handler e) w))) result).
Proof.
  induction p as [[e|a]|resume IH] using Promise_induction; simpl; intros H.
  - apply yields_pending_inv in H as [w H].
    right. exists e, w. split; [constructor | exact H].
  - apply yields_settled_inv in H. subst result.
    left. exists a. split; [constructor | reflexivity].
  - apply yields_pending_inv in H as [w H].
    specialize (IH w). destruct (resume w) as [[p1 behind0] w0] eqn:Hr. simpl in IH, H.
    destruct (IH H) as [(a & Hp & ->) | (e & w1 & Hp & Hk)].
    + left. exists a. split; [|reflexivity]. econstructor; eauto.
    + right. exists e, w1. split; [|exact Hk]. econstructor; eauto.
Qed.

Lemma yields_promise_map {A B : Type} (f : A -> B) (p : Promise A) result :
  yields (promise_map f p) result ->
  exists r, yields p r /\ result = match r with inl e => inl e | inr a => inr (f a) end.
Proof.
  induction p as [[e|a]|resume IH] using Promise_induction; simpl; intros H.
  - apply yields_settled_inv in H. subst result.
    exists (inl e). split; [constructor | reflexivity].
  - apply yields_settled_inv in H. subst result.
    exists (inr a). split; [constructor | reflexivity].
  - apply yields_pending_inv in H as [w H].
    specialize (IH w). destruct (resume w) as [[p1 behind0] w0] eqn:Hr. simpl in IH, H.
    destruct (IH H) as (r & Hp & ->).
    exists r. split; [|reflexivity]. econstructor; eauto.
Qed.

Lemma yields_pending_promise {A : Type} (promise result : error + A) :
  yields (pending promise) result -> result = promise.
Proof.
  unfold pending. intros H.
  apply yields_pending_inv in H as [w H]. apply yields_settled_inv in H. exact H.
Qed.


(** What two promises awaited together settle with comes from them: the
    pair of their values, or a rejection of one of them. *)
Lemma yields_both {A B : Type} (p : Promise A) (q : Promise B) result :
  yields (both p q) result ->
  match result with
  | inr (a, b) => yields p (inr a) /\ yields q (inr b)
  | inl e => yields p (inl e) \/ yields q (inl e)
  end.
Proof.
  assert (Hleft : forall (resume : World -> Promise A * list Background * World) w
                         (q0 : Promise B) r,
             match r with
             | inr (a, b) => yields (fst (fst (resume w))) (inr a) /\ yields q0 (inr b)
             | inl e => yields (fst (fst (resume w))) (inl e) \/ yields q0 (inl e)
             end ->
             match r with
             | inr (a, b) => yields (Pending resume) (inr a) /\ yields q0 (inr b)
             | inl e => yields (Pending resume) (inl e) \/ yields q0 (inl e)
             end).
  { intros resume w q0 [e|[a b]] H.
    - destruct H as [H|H]; [left; eapply yields_step; exact H | right; exact H].
    - destruct H as [H1 H2]. split; [eapply yields_step; exact H1 | exact H2]. }
  assert (Hright : forall (p0 : Promise A)
                          (resume : World -> Promise B * list Background * World) w r,
             match r with
             | inr (a, b) => yields p0 (inr a) /\ yields (fst (fst (resume w))) (inr b)
             | inl e => yields p0 (inl e) \/ yields (fst (fst (resume w))) (inl e)
             end ->
             match r with
             | inr (a, b) => yields p0 (inr a) /\ yields (Pending resume) (inr b)
             | inl e => yields p0 (inl e) \/ yields (Pending resume) (inl e)
             end).
  { intros p0 resume w [e|[a b]] H.
    - destruct H as [H|H]; [left; exact H | right; eapply yields_step; exact H].
    - destruct H as [H1 H2]. split; [exact H1 | eapply yields_step; exact H2]. }
  revert q result.
  induction p as [[e|a]|resume_p IHp] using Promise_induction;
    intros q; induction q as [[e'|b]|resume_q IHq] using Promise_induction;
    intros result H; simpl in H.
  - apply yields_pending_inv in H as [w H].
    destruct (choose 2 w) as [k w0]. apply yields_settled_inv in H. subst result.
    destruct k; [left | right]; constructor.
  - apply yields_settled_inv in H. subst result. left. constructor.
  - apply yields_pending_inv in H as [w H].
    destruct (choose 2 w) as [[|k] w0].
    + apply yields_settled_inv in H. subst result. left. constructor.
    + apply (Hright _ resume_q w0). apply IHq.
      destruct (resume_q w0) as [[q1 behind0] w1]. exact H.
  - apply yields_settled_inv in H. subst result. right. constructor.
  - apply yields_settled_inv in H. subst result. split; constructor.
  - apply yields_pending_inv in H as [w H].
    apply (Hright _ resume_q w). apply IHq.
    destruct (resume_q w) as [[q1 behind0] w1]. exact H.
  - apply yields_pending_inv in H as [w H].
    destruct (choose 2 w) as [[|k] w0].
    + apply (Hleft resume_p w0). apply IHp.
      destruct (resume_p w0) as [[p1 behind0] w1]. exact H.
    + apply yields_settled_inv in H. subst result. right. constructor.
  - apply yields_pending_inv in H as [w H].
    apply (Hleft resume_p w). apply IHp.
    destruct (resume_p w) as [[p1 behind0] w1]. exact H.
  - apply yields_pending_inv in H as [w H].
    destruct (choose 2 w) as [[|k] w0].
    + apply (Hleft resume_p w0). apply IHp.
      destruct (resume_p w0) as [[p1 behind0] w1]. exact H.
    + apply (Hright _ resume_q w0). apply IHq.
      destruct (resume_q w0) as [[q1 behind0] w1]. exact H.
Qed.

(** The values of [Promise.all] are values of the promises, in the order
    of the list. *)
Lemma yields_Promise_all_values {A : Type} (promises : list (Promise A)) values :
  yields (Promise_all promises) (inr values) ->
  Forall2 (fun p a => yields p (inr a)) promises values.
Proof.
  revert values. induction promises as [|p rest IH]; intros values H.
  - simpl in H. inversion H; subst. constructor.
  - simpl in H. apply yields_promise_map in H as (r & Hboth & Hr).
    destruct r as [e|[a l]]; [discriminate|]. injection Hr as ->.
    apply yields_both in Hboth as [Hp Hrest].
    constructor; [exact Hp | apply IH; exact Hrest].
Qed.

(** The rejection of [Promise.all] is the rejection of one of the
    promises. *)
Lemma yields_Promise_all_rejection {A : Type} (promises : list (Promise A)) e :
  yields (Promise_all promises) (inl e) ->
  Exists (fun p => yields p (inl e)) promises.
Proof.
  induction promises as [|p rest IH]; intros H.
  - simpl in H. inversion H.
  - simpl in H. apply yields_promise_map in H as (r & Hboth & Hr).
    destruct r as [e0|[a l]]; [|discriminate]. injection Hr as ->.
    apply yields_both in Hboth as [Hp | Hrest].
    + left. exact Hp.
    + right. apply IH. exact Hrest.
Qed.

(** A promise that can only be rejected makes [Promise.all] fail. *)
Lemma Promise_all_rejected {A : Type} (promises : list (Promise A)) result :
  Exists (fun p => forall r, yields p r -> exists e, r = inl e) promises ->
  yields (Promise_all promises) result ->
  exists e, result = inl e.
Proof.
  intros Hdoomed H. destruct result as [e|values]; [eauto|].
  apply yields_Promise_all_values in H.
  exfalso. revert values H. induction Hdoomed as [p rest Hp | p rest _ IH]; intros values H.
  - inversion H; subst. destruct (Hp _ ltac:(eassumption)) as [e He]. discriminate.
  - inversion H; subst. eapply IH. eassumption.
Qed.

(** *** Calls made one after the other *)

Lemma launch_each_app_fail {A B : Type} (f : A -> M (Promise B)) pre a post w
    started w1 e behind w2 :
  launch_each f pre w = (inr started, [], w1) ->
  (forall x w0 p b w0', f x w0 = (inr p, b, w0') -> b = []) ->
  f a w1 = (inl e, behind, w2) ->
  launch_each f (pre ++ a :: post) w = (inl e, flat_map abandon started ++ behind, w2).
Proof.
  intros Hpre Hclean Ha. revert w started Hpre.
  induction pre as [|x pre IH]; intros w started Hpre; simpl in *.
  - unfold ret in Hpre. injection Hpre as <- <-. rewrite Ha. reflexivity.
  - destruct (f x w) as [[[e0|p] b] w0] eqn:Hx; [discriminate|].
    pose proof (Hclean _ _ _ _ _ Hx) as ->.
    destruct (launch_each f pre w0) as [[[e0|ps] b'] w0'] eqn:Hrest; [discriminate|].
    simpl in Hpre. injection Hpre as <- -> <-.
    rewrite (IH _ _ Hrest). simpl. rewrite app_assoc. reflexivity.
Qed.


(** ** Auxiliary facts on strings and texts *)

Lemma string_app_assoc (a b c : string) : (a +:+ b) +:+ c = a +:+ b +:+ c.
Proof.
  induction a as [|x a IH]; [reflexivity|].
  change (String x ((a +:+ b) +:+ c) = String x (a +:+ b +:+ c)).
  rewrite IH. reflexivity.
Qed.

Lemma string_app_nil_r (a : string) : a +:+ EmptyString = a.
Proof.
  induction a as [|x a IH]; [reflexivity|].
  change (String x (a +:+ EmptyString) = String x a).
  rewrite IH. reflexivity.
Qed.

Lemma ci_eqb_lt (c : ascii) : ci_eqb "<" c = Ascii.eqb "<" c.
Proof. destruct c as [[] [] [] [] [] [] [] []]; reflexivity. Qed.

(** X20. A text in which no [<] occurs has no injection tag. *)
Lemma exec_all_without_lt (s : string) : without_lt s = true -> exec_all s = [].
Proof.
  intros Hs. unfold exec_all.
  enough (H : forall pos, exec_all_from s pos 0 = []) by apply H.
  induction s as [|c s IH]; intros pos; [reflexivity|].
  simpl in Hs. apply andb_true_iff in Hs as [Hc Hs].
  cbn [exec_all_from].
  assert (Hhere : match_tag_here (String c s) = None).
  { unfold match_tag_here, open_tag. cbn [ci_strip].
    rewrite ci_eqb_lt, Ascii.eqb_sym. apply negb_true_iff in Hc. rewrite Hc.
    reflexivity. }
  rewrite Hhere. apply IH. exact Hs.
Qed.

Lemma substring_whole (s : string) : String.substring 0 (String.length s) s = s.
Proof. induction s as [|c s IH]; simpl; [reflexivity | now rewrite IH]. Qed.

Lemma js_substring_from_0 (s : string) : js_substring_from s 0 = s.
Proof.
  unfold js_substring_from, js_substring.
  rewrite Nat.min_0_l, Nat.max_0_l, Nat.min_id, Nat.sub_0_r. simpl.
  apply substring_whole.
Qed.

(** The message never is a falsy value, so the empty string that
    [_renderFragment] keeps at hand is never used. *)
Lemma contentRenderErrorMessage_truthy (f : Fragment) (fetchError : value) :
  js_or (contentRenderErrorMessage f fetchError) (VStr EmptyString)
  = contentRenderErrorMessage f fetchError.
Proof.
  unfold contentRenderErrorMessage, js_or.
  destruct (truthy (resolve_message _ _)) eqn:Ht; [rewrite Ht|]; reflexivity.
Qed.

(** ** Lookups *)

Lemma has_property_false {A : Type} (object : gmap string A) (name : string) :
  has_property object name = false <->
  object !! name = None /\ name ∉ Object_prototype.
Proof.
  unfold has_property, js_get.
  destruct (object !! name) as [a|]; [split; [discriminate | intros [? _]; discriminate]|].
  destruct (bool_decide (name ∈ Object_prototype)) eqn:Hin.
  - apply bool_decide_eq_true_1 in Hin. split; [discriminate | intros [_ Hn]; contradiction].
  - apply bool_decide_eq_false_1 in Hin. split; [intros _; split; [reflexivity | exact Hin] | reflexivity].
Qed.

Lemma js_get_absent {A : Type} (object : gmap string A) (name : string) :
  has_property object name = false -> js_get object name = Absent.
Proof.
  unfold has_property. destruct (js_get object name); [discriminate | discriminate | reflexivity].
Qed.

(** ** The renderer, step by step *)

(** [renderRecursive] satisfies the equation its source text states. *)
Lemma renderRecursive_eq manager (fragmentBody : value) (currentDepth : nat) :
  renderRecursive manager fragmentBody currentDepth =
  if (MAX_DEPTH <? currentDepth)%nat then resolve fragmentBody
  else renderRecursive_step manager
         (fun b => renderRecursive manager b (currentDepth + 1)) fragmentBody.
Proof.
  unfold renderRecursive.
  destruct (MAX_DEPTH <? currentDepth)%nat eqn:Hd.
  - apply Nat.ltb_lt in Hd.
    replace (S MAX_DEPTH - currentDepth) with 0 by lia. reflexivity.
  - apply Nat.ltb_ge in Hd.
    replace (S MAX_DEPTH - currentDepth) with (S (MAX_DEPTH - currentDepth)) by lia.
    replace (S MAX_DEPTH - (currentDepth + 1)) with (MAX_DEPTH - currentDepth) by lia.
    reflexivity.
Qed.

Lemma launch_unfold manager recur (m : TagMatch) w :
  launch manager recur m w =
  match template_of manager m with
  | inl e => (inl e, [], w)
  | inr template =>
      (inr (match fetcher (calls w) (mkFetchCall template None) with
            | Throws e => Settled (inl e)
            | Returns promise =>
                then_ (pending (then_body promise)) (resume_match manager recur m template)
            end), [], record (mkFetchCall template None) w)
  end.
Proof.
  unfold launch, template_of, resume_match, bind, lift.
  destruct (resolve_template _ _ _) as [e|template]; [reflexivity|].
  unfold _boundFragmentRender, async, enter, await_fetch, fetchFragmentBody, bind, _fetch, ret.
  destruct (fetcher (calls w) _); reflexivity.
Qed.

Lemma launch_clean manager recur (m : TagMatch) w p behind w' :
  launch manager recur m w = (inr p, behind, w') -> behind = [].
Proof.
  rewrite launch_unfold. destruct (template_of manager m); [discriminate|].
  intros H. injection H as _ <- _. reflexivity.
Qed.

Lemma launch_each_launch manager recur (matches : list TagMatch) w :
  Forall (fun m => exists template, template_of manager m = inr template) matches ->
  exists started w1,
    launch_each (launch manager recur) matches w = (inr started, [], w1)
    /\ length started = length matches
    /\ calls w1 = calls w ++ flat_map (template_call manager) matches
    /\ schedule w1 = schedule w.
Proof.
  intros Hall. revert w. induction Hall as [|m rest [template Hm] _ IH]; intros w.
  - exists [], w. simpl. rewrite app_nil_r. repeat split; reflexivity.
  - simpl. rewrite launch_unfold, Hm.
    destruct (IH (record (mkFetchCall template None) w)) as (started & w1 & -> & Hlen & Hcalls & Hs).
    eexists _, w1. split; [reflexivity|]. simpl. rewrite Hlen. split; [reflexivity|].
    split; [|exact Hs].
    rewrite Hcalls. unfold template_call at 2. rewrite Hm. simpl.
    rewrite <- app_assoc. reflexivity.
Qed.

Lemma launch_each_launch_inv manager recur (matches : list TagMatch) w started behind w1 :
  launch_each (launch manager recur) matches w = (inr started, behind, w1) ->
  behind = []
  /\ length started = length matches
  /\ calls w1 = calls w ++ flat_map (template_call manager) matches
  /\ schedule w1 = schedule w
  /\ Forall (fun m => exists template, template_of manager m = inr template) matches.
Proof.
  revert w started behind. induction matches as [|m rest IH]; intros w started behind; simpl.
  - unfold ret. intros H. injection H as <- <- <-. rewrite app_nil_r.
    repeat split; constructor.
  - rewrite launch_unfold. destruct (template_of manager m) as [e|template] eqn:Hm;
      [discriminate|].
    destruct (launch_each _ rest _) as [[[e|ps] b] w0] eqn:Hrest; [discriminate|].
    intros H. injection H as <- <- <-.
    destruct (IH _ _ _ Hrest) as (-> & Hlen & Hcalls & Hs & Hall).
    split; [reflexivity|]. split; [simpl; rewrite Hlen; reflexivity|].
    split; [|split; [exact Hs | constructor; eauto]].
    rewrite Hcalls. unfold template_call at 2. rewrite Hm. simpl.
    rewrite <- app_assoc. reflexivity.
Qed.

Lemma renderRecursive_step_unfold manager recur (text : string) w :
  renderRecursive_step manager recur (VStr text) w =
  match launch_each (launch manager recur) (exec_all text) w with
  | (inl e, behind, w') => (inr (Settled (inl e)), behind, w')
  | (inr started, behind, w') =>
      (inr (then_ (Promise_all started) (inject (VStr text))), behind, w')
  end.
Proof.
  unfold renderRecursive_step, async, enter, await, all_of. simpl js_toString.
  destruct (launch_each _ _ w) as [[[e|started] behind] w']; reflexivity.
Qed.

Lemma perform_await_fetch {A B : Type} (m : M (error + A)) (k : A -> M (Promise B)) w :
  perform (await_fetch m k) w =
  match m w with
  | (inl e, behind, w') => (inl e, behind, w')
  | (inr promise, behind, w') => run (then_ (pending promise) k) behind w'
  end.
Proof.
  unfold perform, await_fetch. destruct (m w) as [[[e|promise] behind] w']; reflexivity.
Qed.

Lemma enter_await_fetch {A B : Type} (m : M (error + A)) (k : A -> M (Promise B)) w :
  enter (await_fetch m k) w =
  match m w with
  | (inl e, behind, w') => (Settled (inl e), behind, w')
  | (inr promise, behind, w') => (then_ (pending promise) k, behind, w')
  end.
Proof.
  unfold enter, await_fetch. destruct (m w) as [[[e|promise] behind] w']; reflexivity.
Qed.

Lemma enter_await {A B : Type} (m : M (Promise A)) (k : A -> M (Promise B)) w :
  enter (await m k) w =
  match m w with
  | (inl e, behind, w') => (Settled (inl e), behind, w')
  | (inr p, behind, w') => (then_ p k, behind, w')
  end.
Proof.
  unfold enter, await. destruct (m w) as [[[e|p] behind] w']; reflexivity.
Qed.

Lemma perform_await {A B : Type} (m : M (Promise A)) (k : A -> M (Promise B)) w :
  perform (await m k) w =
  match m w with
  | (inl e, behind, w') => (inl e, behind, w')
  | (inr p, behind, w') => run (then_ p k) behind w'
  end.
Proof.
  unfold perform, await. destruct (m w) as [[[e|p] behind] w']; reflexivity.
Qed.

(** Awaiting the promise of a fetcher while nothing else is going on. *)
Lemma run_then_pending {A B : Type} (promise : error + A) (k : A -> M (Promise B)) w :
  run (then_ (pending promise) k) [] w =
  match promise with
  | inl e => (inl e, [], w)
  | inr a => let '(q, behind, w') := enter (k a) w in run q behind w'
  end.
Proof.
  rewrite run_then. simpl. destruct promise as [e|a]; reflexivity.
Qed.

Lemma _fetch_unfold (fragment : Property Fragment) options w :
  _fetch fragment options w =
  (match fetcher (calls w) (mkFetchCall fragment options) with
   | Throws e => inl e
   | Returns promise => inr promise
   end, [], record (mkFetchCall fragment options) w).
Proof. unfold _fetch. destruct (fetcher _ _); reflexivity. Qed.

(** An async function does not throw when it is called. *)
Lemma async_returns {A : Type} (body : M (Promise A)) w :
  exists p behind w', async body w = (inr p, behind, w').
Proof. unfold async. destruct (enter body w) as [[p behind] w']. eauto. Qed.

Lemma renderRecursive_returns manager (fragmentBody : value) (currentDepth : nat) w :
  exists p behind w',
    renderRecursive manager fragmentBody currentDepth w = (inr p, behind, w').
Proof.
  unfold renderRecursive. destruct (S MAX_DEPTH - currentDepth) as [|n]; simpl.
  - unfold resolve, ret. eauto.
  - apply async_returns.
Qed.

(** What [render] does, step by step. *)
Lemma render_unfold (route : Route) w :
  let manager := new_FragmentManager route in
  let base := mkFetchCall (Own (baseTemplate route)) None in
  perform (render route) w =
  match outcome (fetcher (calls w) base) with
  | inl e => (inl e, [], record base w)
  | inr first =>
      match outcome (fetcher (calls w ++ [base]) base) with
      | inl e => (inl e, [], record base (record base w))
      | inr second =>
          let '(result, behind, w') :=
            perform (renderRecursive manager (body first) 1)
                    (record base (record base w)) in
          let '(behind', w'') := interleave behind w' in
          (match result with
           | inl e => inl e
           | inr rendered => inr (new_FragmentBody rendered (contentType second))
           end, behind', w'')
      end
  end.
Proof.
  intros manager base.
  unfold render. rewrite perform_async. fold manager.
  rewrite perform_await_fetch.
  unfold baseBody, _fetchBase, bind at 1. rewrite _fetch_unfold.
  change (baseTemplate (_route manager)) with (baseTemplate route). fold base.
  destruct (fetcher (calls w) base) as [e|[e|first]]; cbn [outcome then_body ret];
    [reflexivity| |].
  { cbv beta iota zeta. rewrite app_nil_r, run_then_pending. reflexivity. }
  cbv beta iota zeta. rewrite app_nil_r, run_then_pending.
  rewrite enter_await_fetch.
  unfold baseContentType, _fetchBase, bind at 1. rewrite _fetch_unfold.
  change (baseTemplate (_route manager)) with (baseTemplate route). fold base.
  change (calls (record base w)) with (calls w ++ [base]).
  destruct (fetcher (calls w ++ [base]) base) as [e|[e|second]];
    cbn [outcome then_contentType ret]; [reflexivity| |].
  { cbv beta iota zeta. rewrite app_nil_r, run_then_pending. reflexivity. }
  cbv beta iota zeta. rewrite app_nil_r, run_then_pending. rewrite enter_await.
  unfold perform.
  destruct (renderRecursive_returns manager (body first) 1 (record base (record base w)))
    as (p & behind & w' & ->).
  rewrite run_then.
  destruct (run p behind w') as [[[e|rendered] pool'] w1].
  - destruct (interleave pool' w1); reflexivity.
  - destruct (interleave pool' w1) as [pool1 w2]. simpl.
    rewrite app_nil_r. reflexivity.
Qed.

(** ** The depth ceiling *)


(** ** Bodies without injection tags *)

(** C9. Below the ceiling, a body in which the tag expression finds no match
    is returned unchanged (and nothing is fetched). *)
Theorem no_tags_identity manager (text : string) (currentDepth : nat) w :
  exec_all text = [] ->
  currentDepth <= MAX_DEPTH ->
  perform (renderRecursive manager (VStr text) currentDepth) w = (inr (VStr text), [], w).
Proof.
  intros Hnone Hd. rewrite renderRecursive_eq.
  apply Nat.ltb_ge in Hd. rewrite Hd.
  unfold perform. rewrite renderRecursive_step_unfold, Hnone. simpl.
  unfold inject, bind, lift, resolve, ret. simpl.
  rewrite js_substring_from_0. reflexivity.
Qed.

(** ** The entry point *)

(** C10, as the code has it. [render] first fetches the base fragment for
    its body; if that succeeds it fetches it again for its content type; only
    when both have succeeded does [renderRecursive] start, at depth 1, and
    the content type returned is that of the second fetch. *)
Theorem render_fetches_base_twice (route : Route) w :
  let manager := new_FragmentManager route in
  let base := mkFetchCall (Own (baseTemplate route)) None in
  perform (render route) w =
  match outcome (fetcher (calls w) base) with
  | inl e => (inl e, [], record base w)
  | inr first =>
      match outcome (fetcher (calls w ++ [base]) base) with
      | inl e => (inl e, [], record base (record base w))
      | inr second =>
          let '(result, behind, w') :=
            perform (renderRecursive manager (body first) 1)
                    (record base (record base w)) in
          let '(behind', w'') := interleave behind w' in
          (match result with
           | inl e => inl e
           | inr rendered => inr (new_FragmentBody rendered (contentType second))
           end, behind', w'')
      end
  end.
Proof. exact (render_unfold route w). Qed.

(** ** The manager *)

(** C8, as the code has it. For a name that is not in the fragment map,
    [fragmentBody] raises nothing of its own: it calls the fetcher with
    whatever the lookup of the name gives, which is undefined unless the name
    is that of a member of [Object.prototype], and yields what the fetcher
    yields. The check is made by the renderer, with [hasFragment], before it
    turns a name into a fetch: for a name that [hasFragment] does not accept
    it raises its own errors and makes no call. *)
Theorem fragmentBody_unknown_name manager (name : string) options w :
  _sourceFragments manager !! name = None ->
  let found : Property Fragment :=
    if bool_decide (name ∈ Object_prototype) then Inherited name else Absent in
  fragmentBody manager name options w
  = (match fetcher (calls w) (mkFetchCall found options) with
     | Throws e => inl e
     | Returns promise => inr (then_body promise)
     end, [], record (mkFetchCall found options) w)
  /\ (name ∉ Object_prototype ->
      found = Absent
      /\ hasFragment manager name = false
      /\ (forall root,
            fetch_source manager root name w
            = (inl (FragmentRenderError (MissingDataSource name)), [], w))
      /\ (forall attributes embedded,
            templateNameToInject attributes = Some name ->
            resolve_template manager attributes embedded
            = inl (UnknownFragmentReference name))).
Proof.
  intros Habsent found.
  assert (Hget : js_get (_sourceFragments manager) name = found).
  { unfold js_get. rewrite Habsent. reflexivity. }
  split.
  - unfold fragmentBody, bind. rewrite _fetch_unfold, Hget.
    destruct (fetcher (calls w) _); reflexivity.
  - intros Hnot.
    assert (Hfound : found = Absent).
    { unfold found. rewrite (bool_decide_eq_false_2 _ Hnot). reflexivity. }
    assert (Hhas : hasFragment manager name = false).
    { unfold hasFragment. apply has_property_false. split; assumption. }
    split; [exact Hfound|]. split; [exact Hhas|]. split.
    + intros root. unfold fetch_source. rewrite Hhas. reflexivity.
    + intros attributes embedded Hname. unfold resolve_template.
      rewrite Hname, Hhas. reflexivity.
Qed.

(** ** What [renderRecursive] returns *)

Lemma renderRecursive_step_defined manager recur (fragmentBody : value) w :
  fragmentBody <> VUndefined ->
  renderRecursive_step manager recur fragmentBody w =
  match launch_each (launch manager recur) (exec_all (js_toString fragmentBody)) w with
  | (inl e, behind, w') => (inr (Settled (inl e)), behind, w')
  | (inr started, behind, w') =>
      (inr (then_ (Promise_all started) (inject fragmentBody)), behind, w')
  end.
Proof.
  intros Hdefined.
  unfold renderRecursive_step, async, enter, await, all_of.
  destruct fragmentBody; try contradiction;
    destruct (launch_each _ _ w) as [[[failure|started] behind] w']; reflexivity.
Qed.

Lemma inject_outcome (fragmentBody : value) renderedContent w result :
  yields (fst (fst (enter (inject fragmentBody renderedContent) w))) (inr result) ->
  is_string result = true.
Proof.
  unfold inject, enter, bind, lift, resolve, ret.
  destruct (_injectReplacements fragmentBody renderedContent) as [e|text]; simpl;
    intros H; apply yields_settled_inv in H; [discriminate|].
  injection H as ->. reflexivity.
Qed.

Lemma renderRecursive_returns_string manager (fragmentBody : value)
    (currentDepth : nat) w rendered behind w' :
  currentDepth <= MAX_DEPTH ->
  perform (renderRecursive manager fragmentBody currentDepth) w = (inr rendered, behind, w') ->
  is_string rendered = true.
Proof.
  intros Hd. rewrite renderRecursive_eq.
  apply Nat.ltb_ge in Hd. rewrite Hd. unfold perform.
  assert (Hdefined : fragmentBody <> VUndefined ->
            match renderRecursive_step manager
                    (fun b => renderRecursive manager b (currentDepth + 1))
                    fragmentBody w with
            | (inl e, behind0, w0) => (inl e, behind0, w0)
            | (inr p, behind0, w0) => run p behind0 w0
            end = (inr rendered, behind, w') ->
            is_string rendered = true).
  { intros Hdefined. rewrite renderRecursive_step_defined by exact Hdefined.
    destruct (launch_each _ _ w) as [[[failure|started] behind0] w0];
      [simpl; discriminate|].
    intros Hrun. apply run_yields in Hrun.
    apply yields_then in Hrun as [(failure & _ & He) | (a & w1 & _ & Hk)]; [discriminate|].
    eapply inject_outcome. exact Hk. }
  destruct fragmentBody; try (apply Hdefined; discriminate).
  simpl. discriminate.
Qed.

(** X11. The body that [render] returns is a string, whatever the fetcher
    and the template engine give: what is not a string fails on the way. *)
Theorem render_returns_string (route : Route) w (result : FragmentBody) behind w' :
  perform (render route) w = (inr result, behind, w') ->
  is_string (body result) = true.
Proof.
  rewrite render_unfold.
  destruct (outcome (fetcher (calls w) _)) as [e|first]; [discriminate|].
  destruct (outcome (fetcher (calls w ++ _) _)) as [e|second]; [discriminate|].
  destruct (perform (renderRecursive _ (body first) 1) _) as [[[e|v] b] w1] eqn:Hr;
    destruct (interleave b w1) as [b' w2]; [discriminate|].
  intros Hres. injection Hres as <- _ _. simpl.
  eapply renderRecursive_returns_string; [|exact Hr]. unfold MAX_DEPTH. lia.
Qed.

(** X12. When the body fetched for the base fragment is undefined, [render]
    fails with the error about an undefined body, after the two fetches of
    the base fragment. *)
Theorem render_undefined_base (route : Route) w first second :
  let base := mkFetchCall (Own (baseTemplate route)) None in
  outcome (fetcher (calls w) base) = inr first ->
  body first = VUndefined ->
  outcome (fetcher (calls w ++ [base]) base) = inr second ->
  perform (render route) w = (inl EmptyBody, [], record base (record base w)).
Proof.
  intros base Hfirst Hbody Hsecond.
  rewrite render_unfold. fold base. rewrite Hfirst, Hsecond, Hbody.
  rewrite renderRecursive_eq. reflexivity.
Qed.

(** X19. A body that is an object cannot be rendered below the ceiling:
    [renderRecursive] fails with a type error without fetching anything. So
    an object fetched as the template of a tag never reaches the template
    engine unless the tag stands at depth [MAX_DEPTH]. *)
Theorem object_body_is_not_rendered manager fields (currentDepth : nat) w :
  currentDepth <= MAX_DEPTH ->
  perform (renderRecursive manager (VObj fields) currentDepth) w
  = (inl (TypeError "sourceText.substring is not a function"), [], w)
  /\ (currentDepth < MAX_DEPTH ->
      forall dataForView,
        perform (_renderFragmentPart
                   (fun b => renderRecursive manager b (currentDepth + 1))
                   (VObj fields) dataForView) w
        = (inl (FragmentRenderError
                  (TypeError "sourceText.substring is not a function")), [], w)).
Proof.
  assert (H : forall d, d <= MAX_DEPTH ->
            renderRecursive manager (VObj fields) d w
            = (inr (then_ (Settled (inr [])) (inject (VObj fields))), [], w)).
  { intros d Hd. rewrite renderRecursive_eq. apply Nat.ltb_ge in Hd. rewrite Hd.
    reflexivity. }
  intros Hd. split.
  - unfold perform. rewrite H by exact Hd. reflexivity.
  - intros Hlt dataForView. unfold _renderFragmentPart. rewrite perform_async.
    unfold perform, try_catch, await. rewrite H by lia. reflexivity.
Qed.

(** ** Tags without a template *)

Lemma launch_missing_template manager recur (m : TagMatch) w :
  regex_name (commandAttribs m) = None ->
  regex_template (commandAttribs m) = false ->
  launch manager recur m w = (inl MissingTemplateSpecification, [], w).
Proof.
  intros Hname Htemplate. rewrite launch_unfold.
  unfold template_of, resolve_template, _testInjectAttributes. simpl.
  rewrite Hname, Htemplate. reflexivity.
Qed.


(** A match at which the loop of [renderRecursive] fails: the promise
    returned is rejected from the start, the renderings of the matches before
    it are left behind, and the fetches made are those of their templates. *)
Lemma loop_failure manager (text : string) (currentDepth : nat) w pre m post e :
  let recur := fun b => renderRecursive manager b (currentDepth + 1) in
  currentDepth <= MAX_DEPTH ->
  exec_all text = pre ++ m :: post ->
  Forall (fun m' => exists template, template_of manager m' = inr template) pre ->
  (forall w0, launch manager recur m w0 = (inl e, [], w0)) ->
  exists started w1,
    launch_each (launch manager recur) pre w = (inr started, [], w1)
    /\ length started = length pre
    /\ calls w1 = calls w ++ flat_map (template_call manager) pre
    /\ schedule w1 = schedule w
    /\ renderRecursive manager (VStr text) currentDepth w
       = (inr (Settled (inl e)), flat_map abandon started, w1).
Proof.
  intros recur Hd Hmatches Hpre Hm.
  destruct (launch_each_launch manager recur pre w Hpre)
    as (started & w1 & Hlaunch & Hlen & Hcalls & Hs).
  exists started, w1. repeat (split; [assumption|]).
  rewrite renderRecursive_eq. apply Nat.ltb_ge in Hd. rewrite Hd.
  rewrite renderRecursive_step_unfold, Hmatches. fold recur.
  erewrite launch_each_app_fail; [| exact Hlaunch | apply launch_clean | apply Hm].
  rewrite app_nil_r. reflexivity.
Qed.

(** X13. Within a call of [renderRecursive] below the ceiling, a tag that
    has neither a [fragment-name] nor the [template] flag ends the loop: the
    promise of the call is rejected with the error about it. Up to then the
    fetcher has been called for the templates of the tags before it, and
    their renderings, which nobody awaits, are left behind. *)
Theorem missing_template_fails_level manager (text : string) (currentDepth : nat)
    w pre m post :
  let recur := fun b => renderRecursive manager b (currentDepth + 1) in
  currentDepth <= MAX_DEPTH ->
  exec_all text = pre ++ m :: post ->
  Forall (fun m' => exists template, template_of manager m' = inr template) pre ->
  regex_name (commandAttribs m) = None ->
  regex_template (commandAttribs m) = false ->
  exists started w1,
    launch_each (launch manager recur) pre w = (inr started, [], w1)
    /\ length started = length pre
    /\ calls w1 = calls w ++ flat_map (template_call manager) pre
    /\ schedule w1 = schedule w
    /\ renderRecursive manager (VStr text) currentDepth w
       = (inr (Settled (inl MissingTemplateSpecification)), flat_map abandon started, w1).
Proof.
  intros recur Hd Hmatches Hpre Hname Htemplate.
  apply (loop_failure manager text currentDepth w pre m post); try assumption.
  intros w0. apply launch_missing_template; assumption.
Qed.

(** ** The rendering of one fragment *)

Lemma _renderFragment_catch_unfold (injectedFragment : Property Fragment) required failure w :
  _renderFragment_catch injectedFragment required failure w
  = (match recovered injectedFragment required failure with
     | inl e => inl e
     | inr v => inr (Settled (inr v))
     end, [], w).
Proof.
  unfold _renderFragment_catch, recovered.
  destruct (instanceof_FragmentRenderError failure && negb required); [|reflexivity].
  destruct injectedFragment; try reflexivity.
  unfold resolve, ret. rewrite contentRenderErrorMessage_truthy. reflexivity.
Qed.



Lemma call_renderFragment manager recur (injectedFragment : Property Fragment)
    (content : value) required names repeat w :
  _renderFragment manager recur injectedFragment content required names repeat w =
  match _renderFragment_try manager recur content names repeat w with
  | (inl e, behind, w') =>
      (inr (Settled (recovered injectedFragment required e)), behind, w')
  | (inr p, behind, w') =>
      (inr (catch_ p (_renderFragment_catch injectedFragment required)), behind, w')
  end.
Proof.
  unfold _renderFragment, async, enter, try_catch.
  destruct (_renderFragment_try manager recur content names repeat w)
    as [[[e|p] behind] w']; [|reflexivity].
  rewrite _renderFragment_catch_unfold, app_nil_r.
  destruct (recovered injectedFragment required e); reflexivity.
Qed.

Lemma call_renderFragmentPart recur (content : value) dataForView w :
  _renderFragmentPart recur content dataForView w =
  match recur content w with
  | (inl e, behind, w') => (inr (Settled (inl (FragmentRenderError e))), behind, w')
  | (inr p, behind, w') => (inr (catch_ (then_ p (evaluate dataForView)) wrap), behind, w')
  end.
Proof.
  unfold _renderFragmentPart, async, enter, try_catch, await.
  destruct (recur content w) as [[[e|p] behind] w']; [|reflexivity].
  unfold throw. rewrite app_nil_r. reflexivity.
Qed.

Lemma run_renderFragmentPart (p : Promise value) dataForView pool w :
  run (catch_ (then_ p (evaluate dataForView)) wrap) pool w =
  let '(result, pool', w') := run p pool w in
  let '(pool1, w1) := interleave pool' w' in
  match match result with
        | inl e => inl e
        | inr str => dotTemplate str dataForView
        end with
  | inr text => (inr text, pool1, w1)
  | inl e =>
      let '(pool2, w2) := interleave pool1 w1 in
      (inl (FragmentRenderError e), pool2, w2)
  end.
Proof.
  rewrite run_catch, run_then.
  destruct (run p pool w) as [[[e|str] pool'] w'].
  - destruct (interleave pool' w') as [pool1 w1].
    destruct (interleave pool1 w1) as [pool2 w2]. simpl. rewrite app_nil_r. reflexivity.
  - destruct (interleave pool' w') as [pool1 w1].
    unfold evaluate, enter, bind, lift, resolve, ret.
    destruct (dotTemplate str dataForView) as [e|text]; simpl.
    + rewrite app_nil_r. destruct (interleave pool1 w1) as [pool2 w2].
      simpl. rewrite app_nil_r. reflexivity.
    + rewrite app_nil_r. reflexivity.
Qed.

(** [_renderFragmentPart], given the nested call of [renderRecursive]. *)
Lemma perform_renderFragmentPart recur (content : value) dataForView w :
  (forall w0, exists p behind w', recur content w0 = (inr p, behind, w')) ->
  perform (_renderFragmentPart recur content dataForView) w =
  let '(result, pool, w') := perform (recur content) w in
  let '(pool1, w1) := interleave pool w' in
  match match result with
        | inl e => inl e
        | inr str => dotTemplate str dataForView
        end with
  | inr text => (inr text, pool1, w1)
  | inl e =>
      let '(pool2, w2) := interleave pool1 w1 in
      (inl (FragmentRenderError e), pool2, w2)
  end.
Proof.
  intros Hasync. unfold perform. rewrite call_renderFragmentPart.
  destruct (Hasync w) as (p & behind & w' & ->).
  apply run_renderFragmentPart.
Qed.

(** Every failure of [_renderFragmentPart] is a [FragmentRenderError]. *)
Lemma _renderFragmentPart_failure recur (content : value) dataForView e :
  may_yield (_renderFragmentPart recur content dataForView) (inl e) ->
  instanceof_FragmentRenderError e = true.
Proof.
  intros (w & p & behind & w' & Hcall & Hy).
  rewrite call_renderFragmentPart in Hcall.
  destruct (recur content w) as [[[e0|p0] b] w0].
  - injection Hcall as <- _ _. apply yields_settled_inv in Hy. injection Hy as ->.
    reflexivity.
  - injection Hcall as <- _ _.
    apply yields_catch in Hy as [(a & _ & Ha) | (e0 & w1 & _ & Hh)]; [discriminate|].
    unfold wrap, enter, throw in Hh. simpl in Hh.
    apply yields_settled_inv in Hh. injection Hh as ->. reflexivity.
Qed.


Lemma fetch_source_unfold manager root (name : string) w :
  fetch_source manager root name w =
  if hasFragment manager name
  then (match fetcher (calls w) (source_call manager root name) with
        | Throws e => inl e
        | Returns promise => inr (name, then_body promise)
        end, [], record (source_call manager root name) w)
  else (inl (FragmentRenderError (MissingDataSource name)), [], w).
Proof.
  unfold fetch_source. destruct (hasFragment manager name); simpl; [|reflexivity].
  unfold bind, fragmentBody, bind. rewrite _fetch_unfold.
  fold (source_call manager root name).
  destruct (fetcher (calls w) _); reflexivity.
Qed.

Lemma traverse_fetch_source_inv manager root (names : list string) w entries behind w1 :
  traverse (fetch_source manager root) names w = (inr entries, behind, w1) ->
  behind = []
  /\ calls w1 = calls w ++ map (source_call manager root) names
  /\ schedule w1 = schedule w
  /\ map fst entries = names
  /\ Forall (fun name => hasFragment manager name = true) names.
Proof.
  revert w entries behind. induction names as [|name names IH]; intros w entries behind.
  - simpl. unfold ret. intros H. injection H as <- <- <-. rewrite app_nil_r.
    repeat split; constructor.
  - simpl. unfold bind at 1. rewrite fetch_source_unfold.
    destruct (hasFragment manager name) eqn:Hname; [|discriminate].
    destruct (fetcher (calls w) _) as [e|promise]; [discriminate|].
    unfold bind at 1.
    destruct (traverse (fetch_source manager root) names _) as [[[e|rest] b] w0] eqn:Hrest;
      [discriminate|].
    unfold ret. intros H. injection H as <- <- <-.
    destruct (IH _ _ _ Hrest) as (-> & Hcalls & Hs & Hfst & Hall).
    split; [reflexivity|]. split; [|split; [exact Hs|split]].
    + rewrite Hcalls. simpl. rewrite <- app_assoc. reflexivity.
    + simpl. rewrite Hfst. reflexivity.
    + constructor; assumption.
Qed.

Lemma traverse_app_fail {A B : Type} (f : A -> M B) pre a post w bs w1 e w2 :
  traverse f pre w = (inr bs, [], w1) ->
  f a w1 = (inl e, [], w2) ->
  traverse f (pre ++ a :: post) w = (inl e, [], w2).
Proof.
  revert w bs. induction pre as [|x pre IH]; intros w bs Hpre Ha; simpl in *.
  - unfold ret in Hpre. injection Hpre as <- <-.
    unfold bind. rewrite Ha. reflexivity.
  - unfold bind in *. destruct (f x w) as [[[e'|b] behind] w0]; [discriminate|].
    destruct (traverse f pre w0) as [[[e'|bs'] behind'] w0'] eqn:Hrest; [discriminate|].
    simpl in Hpre. injection Hpre as <- Hb <-.
    apply app_eq_nil in Hb as [-> Hb']. rewrite app_nil_r in Hb'. subst behind'.
    rewrite (IH _ _ Hrest Ha). reflexivity.
Qed.


Lemma _renderFragment_try_failed manager recur (content : value) names repeat w e w1 :
  check_repeat_source manager names repeat w = (inr tt, [], w) ->
  traverse (fetch_source manager
              ((fun accessor => hd EmptyString (split_on "." accessor)) <$> repeat))
           names w = (inl e, [], w1) ->
  _renderFragment_try manager recur content names repeat w = (inl e, [], w1).
Proof.
  intros Hcheck Hfetch. unfold _renderFragment_try.
  unfold bind at 1. rewrite Hcheck. unfold bind at 1. rewrite Hfetch.
  reflexivity.
Qed.


(** ** The policy for failures *)

Lemma recovered_render_error (f : Fragment) required e :
  recovered (Own f) required (FragmentRenderError e)
  = if required then inl (FragmentRenderError e)
    else inr (contentRenderErrorMessage f (VError (FragmentRenderError e))).
Proof. unfold recovered. simpl. destruct required; reflexivity. Qed.








(** ** Data dependencies that are no fragment *)

(** X14. When a data dependency of a tag without repetition is no fragment
    of the route, and the fetcher has answered the calls for the dependencies
    listed before it without throwing, these have been fetched, none after
    it is, and the failure falls under the policy of the fragment: it leaves
    [_renderFragment] when the fragment is required and is replaced by the
    render-error message when it is not. *)
Theorem missing_data_source_policy manager recur (f : Fragment)
    (content : value) (required : bool) (pre : list string) (name : string)
    (post : list string) w entries w1 :
  let failure := FragmentRenderError (MissingDataSource name) in
  let outcome :=
    if required then inl failure
    else inr (contentRenderErrorMessage f (VError failure)) in
  traverse (fetch_source manager None) pre w = (inr entries, [], w1) ->
  hasFragment manager name = false ->
  _renderFragment manager recur (Own f) content required (pre ++ name :: post) None w
  = (inr (Settled outcome), [], w1)
  /\ perform (_renderFragment manager recur (Own f) content required
                (pre ++ name :: post) None) w
     = (outcome, [], w1)
  /\ calls w1 = calls w ++ map (source_call manager None) pre
  /\ schedule w1 = schedule w.
Proof.
  intros failure outcome Hpre Hname.
  assert (Hcall : _renderFragment manager recur (Own f) content required
                    (pre ++ name :: post) None w
                  = (inr (Settled outcome), [], w1)).
  { rewrite call_renderFragment.
    rewrite (_renderFragment_try_failed manager recur content (pre ++ name :: post)
               None w failure w1 eq_refl).
    2:{ apply (traverse_app_fail _ pre name post w entries w1 failure w1 Hpre).
        rewrite fetch_source_unfold, Hname. reflexivity. }
    unfold failure. rewrite recovered_render_error. reflexivity. }
  split; [exact Hcall|]. split.
  - unfold perform. rewrite Hcall. reflexivity.
  - destruct (traverse_fetch_source_inv _ _ _ _ _ _ _ Hpre) as (_ & Hcalls & Hs & _).
    split; assumption.
Qed.

(** ** The source of a repetition *)

Lemma check_repeat_source_invalid manager (names : list string) (accessor : string) w :
  let root := hd EmptyString (split_on "." accessor) in
  hasFragment manager root = false \/ root ∉ names ->
  check_repeat_source manager names (Some accessor) w
  = (inl (FragmentRenderError (InvalidRepeatSource accessor)), [], w).
Proof.
  intros root Hinvalid. unfold check_repeat_source. fold root.
  assert (Hcheck : negb (hasFragment manager root)
                   || negb (bool_decide (root ∈ names)) = true).
  { destruct Hinvalid as [-> | Hnot]; [reflexivity|].
    rewrite (bool_decide_eq_false_2 _ Hnot). apply orb_true_r. }
  cbv zeta. rewrite Hcheck. reflexivity.
Qed.


Lemma _renderFragment_invalid_repeat manager recur (toInject : Property Fragment)
    (content : value) required (names : list string) (accessor : string) w :
  let root := hd EmptyString (split_on "." accessor) in
  hasFragment manager root = false \/ root ∉ names ->
  _renderFragment manager recur toInject content required names (Some accessor) w
  = (inr (Settled (recovered toInject required
                     (FragmentRenderError (InvalidRepeatSource accessor)))), [], w).
Proof.
  intros root Hinvalid. rewrite call_renderFragment. unfold _renderFragment_try.
  unfold bind at 1. rewrite (check_repeat_source_invalid _ _ _ _ Hinvalid).
  reflexivity.
Qed.

(** ** Renderings that cannot succeed *)

Lemma launch_each_app_Exists {A B : Type} (f : A -> M (Promise B)) pre a post
    (Q : Promise B -> Prop) w ps behind w' :
  launch_each f (pre ++ a :: post) w = (inr ps, behind, w') ->
  (forall started b1 w1 p bp w2,
      launch_each f pre w = (inr started, b1, w1) ->
      f a w1 = (inr p, bp, w2) -> Q p) ->
  Exists Q ps.
Proof.
  revert w ps behind w'. induction pre as [|x pre IH]; intros w ps behind w'; simpl.
  - destruct (f a w) as [[[e|p] b] w0] eqn:Ha; [discriminate|].
    destruct (launch_each f post w0) as [[[e|ps0] b'] w0']; [discriminate|].
    intros H HQ. injection H as <- _ _.
    constructor. eapply (HQ [] [] w). { reflexivity. } exact Ha.
  - destruct (f x w) as [[[e|px] b] w0] eqn:Hx; [discriminate|].
    destruct (launch_each f (pre ++ a :: post) w0) as [[[e|ps0] b'] w0'] eqn:Hrest;
      [discriminate|].
    intros H HQ. injection H as <- _ _.
    apply Exists_cons_tl. eapply IH; [exact Hrest|].
    intros started b1 w1 p bp w2 Hpre Ha.
    eapply (HQ (px :: started) (b ++ b1) w1); [|exact Ha].
    rewrite Hpre. reflexivity.
Qed.

(** A match whose rendering can only be rejected makes the call of
    [renderRecursive] that scans it fail. *)
Lemma renderRecursive_rejected manager (text : string) (currentDepth : nat) w pre m post :
  let recur := fun b => renderRecursive manager b (currentDepth + 1) in
  currentDepth <= MAX_DEPTH ->
  exec_all text = pre ++ m :: post ->
  (forall started w1 p behind w2,
      launch_each (launch manager recur) pre w = (inr started, [], w1) ->
      calls w1 = calls w ++ flat_map (template_call manager) pre ->
      launch manager recur m w1 = (inr p, behind, w2) ->
      forall r, yields p r -> exists e, r = inl e) ->
  exists e, fst (fst (perform (renderRecursive manager (VStr text) currentDepth) w)) = inl e.
Proof.
  intros recur Hd Hmatches Hdoomed.
  rewrite renderRecursive_eq. apply Nat.ltb_ge in Hd. rewrite Hd.
  unfold perform. rewrite renderRecursive_step_unfold, Hmatches. fold recur.
  destruct (launch_each (launch manager recur) (pre ++ m :: post) w)
    as [[[e|started] behind] w'] eqn:Hloop.
  - simpl. eauto.
  - destruct (run (then_ (Promise_all started) (inject (VStr text))) behind w')
      as [[result pool] w''] eqn:Hrun.
    simpl. apply run_yields in Hrun.
    apply yields_then in Hrun as [(e & Hall & ->) | (values & w0 & Hall & _)]; [eauto|].
    exfalso.
    assert (Hex : Exists (fun p => forall r, yields p r -> exists e, r = inl e) started).
    { eapply launch_each_app_Exists; [exact Hloop|].
      intros s b1 w1 p bp w2 Hpre Hm.
      destruct (launch_each_launch_inv _ _ _ _ _ _ _ Hpre) as (-> & _ & Hcalls & _).
      eapply Hdoomed; eassumption. }
    destruct (Promise_all_rejected _ _ Hex Hall) as [e He]. discriminate.
Qed.

(** The rendering of a single match, awaited through [Promise.all]. *)
Lemma perform_single_tag manager (text : string) (currentDepth : nat) w m
    (template : Property Fragment) :
  let recur := fun b => renderRecursive manager b (currentDepth + 1) in
  let call := mkFetchCall template None in
  currentDepth <= MAX_DEPTH ->
  exec_all text = [m] ->
  template_of manager m = inr template ->
  perform (renderRecursive manager (VStr text) currentDepth) w =
  match match fetcher (calls w) call with
        | Throws e => inl e
        | Returns promise => then_body promise
        end with
  | inl e => (inl e, [], record call w)
  | inr content =>
      let '(q, behind, w1) :=
        enter (resume_match manager recur m template content) (record call w) in
      let '(result, pool, w2) := run q behind w1 in
      let '(pool1, w3) := interleave pool w2 in
      (match result with
       | inl e => inl e
       | inr item =>
           match _injectReplacements (VStr text) [item] with
           | inl e => inl e
           | inr out => inr (VStr out)
           end
       end, pool1, w3)
  end.
Proof.
  intros recur call Hd Hmatches Htemplate.
  rewrite renderRecursive_eq. apply Nat.ltb_ge in Hd. rewrite Hd.
  unfold perform. rewrite renderRecursive_step_unfold, Hmatches. fold recur.
  simpl launch_each. rewrite launch_unfold, Htemplate. fold call.
  unfold ret. cbv beta iota zeta. simpl app.
  rewrite run_then, run_Promise_all_single.
  destruct (fetcher (calls w) call) as [e|[e|fetched]].
  - reflexivity.
  - simpl then_body. rewrite run_then_pending. reflexivity.
  - simpl then_body. rewrite run_then_pending.
    destruct (enter (resume_match manager recur m template (body fetched)) (record call w))
      as [[q behind] w1].
    destruct (run q behind w1) as [[[e|item] pool] w2].
    + destruct (interleave pool w2) as [pool1 w3]. reflexivity.
    + destruct (interleave pool w2) as [pool1 w3].
      unfold inject, enter, bind, lift, resolve, ret.
      destruct (_injectReplacements (VStr text) [item]) as [e|out]; simpl;
        rewrite app_nil_r; reflexivity.
Qed.

(** X16. When the fetch of the template of a tag fails, the call of
    [renderRecursive] that scans the tag fails, whatever the tag and its
    fragment say about being required; when the tag is the only one of the
    body, the call fails with the error of the fetcher itself, after that
    one fetch. *)
Theorem template_fetch_failure_fails_level manager (text : string)
    (currentDepth : nat) w pre m post (template : Property Fragment) e :
  let call := mkFetchCall template None in
  currentDepth <= MAX_DEPTH ->
  exec_all text = pre ++ m :: post ->
  template_of manager m = inr template ->
  outcome (fetcher (calls w ++ flat_map (template_call manager) pre) call) = inl e ->
  (exists e',
      fst (fst (perform (renderRecursive manager (VStr text) currentDepth) w)) = inl e')
  /\ (pre = [] -> post = [] ->
      perform (renderRecursive manager (VStr text) currentDepth) w
      = (inl e, [], record call w)).
Proof.
  intros call Hd Hmatches Htemplate Hfetch. split.
  - apply (renderRecursive_rejected manager text currentDepth w pre m post Hd Hmatches).
    intros started w1 p behind w2 _ Hcalls Hlaunch r Hr.
    rewrite launch_unfold, Htemplate in Hlaunch. fold call in Hlaunch.
    rewrite Hcalls in Hlaunch.
    destruct (fetcher (calls w ++ flat_map (template_call manager) pre) call)
      as [e0|[e0|fetched]]; simpl in Hfetch; try discriminate.
    + assert (p = Settled (inl e0)) as -> by congruence.
      apply yields_settled_inv in Hr. eauto.
    + assert (p = then_ (pending (then_body (inl e0)))
                    (resume_match manager
                       (fun b => renderRecursive manager b (currentDepth + 1))
                       m template)) as -> by congruence.
      apply yields_then in Hr as [(e1 & _ & ->) | (a & w0 & Ha & _)]; [eauto|].
      apply yields_pending_promise in Ha. discriminate.
  - intros -> ->. simpl in Hmatches, Hfetch. rewrite app_nil_r in Hfetch.
    rewrite (perform_single_tag manager text currentDepth w m template Hd Hmatches
               Htemplate).
    fold call.
    destruct (fetcher (calls w) call) as [e0|[e0|fetched]]; simpl in Hfetch;
      try discriminate; injection Hfetch as ->; reflexivity.
Qed.

(** A tag that repeats over an invalid source and must render: its
    rendering can only be rejected. *)
Lemma launch_invalid_repeat manager recur (m : TagMatch) (f : Fragment)
    (accessor : string) w p behind w' :
  let attributes := _testInjectAttributes (commandAttribs m) in
  let root := hd EmptyString (split_on "." accessor) in
  template_of manager m = inr (Own f) ->
  iterateOverDataName attributes = Some accessor ->
  hasFragment manager root = false \/ root ∉ requiredSources attributes ->
  isRequired f || specifiedRequired attributes = true ->
  launch manager recur m w = (inr p, behind, w') ->
  forall r, yields p r -> exists e, r = inl e.
Proof.
  intros attributes root Htemplate Hrepeat Hinvalid Hreq Hlaunch r Hr.
  rewrite launch_unfold, Htemplate in Hlaunch.
  destruct (fetcher (calls w) (mkFetchCall (Own f) None)) as [e0|promise].
  - assert (p = Settled (inl e0)) as -> by congruence.
    apply yields_settled_inv in Hr. eauto.
  - assert (p = then_ (pending (then_body promise))
                  (resume_match manager recur m (Own f))) as -> by congruence.
    apply yields_then in Hr as [(e1 & _ & ->) | (content & w0 & _ & Hk)]; [eauto|].
    unfold resume_match, _boundFragmentRender_resume in Hk. fold attributes in Hk.
    rewrite Hrepeat, enter_await in Hk.
    unfold effective_sources, array_or in Hk.
    rewrite (_renderFragment_invalid_repeat manager recur (Own f) content _ _ accessor w0
               Hinvalid) in Hk.
    cbn [is_required] in Hk. rewrite Hreq, recovered_render_error in Hk.
    cbn [fst then_] in Hk.
    apply yields_pending_inv in Hk as [w1 Hk]. apply yields_settled_inv in Hk. eauto.
Qed.

(** A failure of the call of [renderRecursive] on the base body is a
    failure of [render]. *)
Lemma render_fails_with_base (route : Route) w first second :
  let manager := new_FragmentManager route in
  let base := mkFetchCall (Own (baseTemplate route)) None in
  outcome (fetcher (calls w) base) = inr first ->
  outcome (fetcher (calls w ++ [base]) base) = inr second ->
  (exists e, fst (fst (perform (renderRecursive manager (body first) 1)
                         (record base (record base w)))) = inl e) ->
  exists e, fst (fst (perform (render route) w)) = inl e.
Proof.
  intros manager base Hfirst Hsecond [e He].
  rewrite render_unfold. fold manager base. rewrite Hfirst, Hsecond.
  destruct (perform (renderRecursive manager (body first) 1) (record base (record base w)))
    as [[result behind] w']. simpl in He. subst result.
  destruct (interleave behind w') as [behind' w'']. simpl. eauto.
Qed.

(** C7, as the code has it. When the root of the [fragment-repeat] path of
    a tag is no fragment of the manager (nor the name of a member of
    [Object.prototype], which [hasFragment] takes for one) or is not among
    the data dependencies, [_renderFragment] raises a [FragmentRenderError]
    about it before any dependency is fetched, and its own policy applies:
    the error leaves the call when the fragment is required, and is replaced
    by the render-error message of the fragment when it is not. When such a
    tag stands in the base body and is required, [render] fails; it fails
    with this very error, after the fetch of the template, when the tag is
    the only one of the base body. *)
Theorem invalid_repeat_source_policy manager recur (f : Fragment)
    (content : value) (required : bool) (names : list string)
    (accessor : string) w :
  let root := hd EmptyString (split_on "." accessor) in
  let failure := FragmentRenderError (InvalidRepeatSource accessor) in
  let replacement :=
    if required then inl failure
    else inr (contentRenderErrorMessage f (VError failure)) in
  hasFragment manager root = false \/ root ∉ names ->
  _renderFragment manager recur (Own f) content required names (Some accessor) w
  = (inr (Settled replacement), [], w)
  /\ perform (_renderFragment manager recur (Own f) content required names
                (Some accessor)) w
     = (replacement, [], w)
  /\ (hasFragment manager root = false <->
      _sourceFragments manager !! root = None /\ root ∉ Object_prototype)
  /\ (forall (route : Route) w0 first second (text : string) pre m post,
         let attributes := _testInjectAttributes (commandAttribs m) in
         let base := mkFetchCall (Own (baseTemplate route)) None in
         let call := mkFetchCall (Own f) None in
         manager = new_FragmentManager route ->
         outcome (fetcher (calls w0) base) = inr first ->
         outcome (fetcher (calls w0 ++ [base]) base) = inr second ->
         body first = VStr text ->
         exec_all text = pre ++ m :: post ->
         template_of manager m = inr (Own f) ->
         iterateOverDataName attributes = Some accessor ->
         requiredSources attributes = names ->
         isRequired f || specifiedRequired attributes = true ->
         (exists e, fst (fst (perform (render route) w0)) = inl e)
         /\ (pre = [] -> post = [] ->
             forall fetched,
               outcome (fetcher (calls w0 ++ [base; base]) call) = inr fetched ->
               perform (render route) w0
               = (inl failure, [], record call (record base (record base w0))))).
Proof.
  intros root failure replacement Hinvalid.
  assert (Hcall : forall recur' content' required' w',
            _renderFragment manager recur' (Own f) content' required' names
              (Some accessor) w'
            = (inr (Settled (if required' then inl failure
                             else inr (contentRenderErrorMessage f (VError failure)))),
               [], w')).
  { intros recur' content' required' w'.
    rewrite (_renderFragment_invalid_repeat manager recur' (Own f) content' required'
               names accessor w' Hinvalid).
    unfold failure. rewrite recovered_render_error. reflexivity. }
  split; [apply Hcall|]. split; [unfold perform; rewrite Hcall; reflexivity|].
  split; [apply has_property_false|].
  intros route w0 first second text pre m post attributes base call
    -> Hfirst Hsecond Hbody Hmatches Htemplate Hrepeat Hnames Hreq.
  split.
  - apply (render_fails_with_base route w0 first second Hfirst Hsecond).
    rewrite Hbody.
    apply (renderRecursive_rejected (new_FragmentManager route) text 1
             (record base (record base w0)) pre m post);
      [unfold MAX_DEPTH; lia | exact Hmatches |].
    intros started w1 p behind w2 _ _ Hlaunch.
    eapply launch_invalid_repeat;
      [exact Htemplate | exact Hrepeat | | exact Hreq | exact Hlaunch].
    fold attributes. rewrite Hnames. exact Hinvalid.
  - intros -> -> fetched Hfetched. simpl in Hmatches.
    rewrite render_unfold. fold base. rewrite Hfirst, Hsecond, Hbody.
    rewrite (perform_single_tag (new_FragmentManager route) text 1
               (record base (record base w0)) m (Own f));
      [| unfold MAX_DEPTH; lia | exact Hmatches | exact Htemplate].
    fold call.
    change (calls (record base (record base w0))) with ((calls w0 ++ [base]) ++ [base]).
    rewrite <- app_assoc. simpl app.
    destruct (fetcher (calls w0 ++ [base; base]) call) as [e0|[e0|fetched0]];
      simpl in Hfetched; try discriminate.
    simpl then_body. cbv beta iota.
    unfold resume_match, _boundFragmentRender_resume. fold attributes.
    rewrite Hrepeat, enter_await.
    unfold effective_sources, array_or. rewrite Hnames, Hcall.
    cbn [is_required]. rewrite Hreq.
    rewrite run_then. reflexivity.
Qed.

(** ** Unknown fragment names *)



(** ** A tag rendered in place *)





(** ** Repetition *)




End Compositor.

(** * Urls *)

Lemma split_on_nonempty (sep : ascii) (s : string) : split_on sep s <> [].
Proof.
  destruct s as [|c s]; simpl; [discriminate|].
  destruct (Ascii.eqb c sep); [discriminate|].
  destruct (split_on sep s); discriminate.
Qed.

(** Splitting and joining on one character are inverse to each other. *)
Lemma join_split_on (sep : ascii) (s : string) :
  join (String sep EmptyString) (split_on sep s) = s.
Proof.
  induction s as [|c s IH]; [reflexivity|].
  simpl. destruct (Ascii.eqb c sep) eqn:Hc.
  - apply Ascii.eqb_eq in Hc. subst c.
    pose proof (split_on_nonempty sep s) as Hne.
    destruct (split_on sep s) as [|w ws] eqn:Hs; [contradiction|].
    change (join (String sep EmptyString) (EmptyString :: w :: ws))
      with (EmptyString +:+ String sep EmptyString
            +:+ join (String sep EmptyString) (w :: ws)).
    rewrite IH. reflexivity.
  - pose proof (split_on_nonempty sep s) as Hne.
    destruct (split_on sep s) as [|w ws] eqn:Hs; [contradiction|].
    destruct ws as [|w' ws].
    + simpl in *. rewrite IH. reflexivity.
    + change (join (String sep EmptyString) (String c w :: w' :: ws))
        with (String c (w +:+ String sep EmptyString
                        +:+ join (String sep EmptyString) (w' :: ws))).
      change (join (String sep EmptyString) (w :: w' :: ws))
        with (w +:+ String sep EmptyString
              +:+ join (String sep EmptyString) (w' :: ws)) in IH.
      rewrite IH. reflexivity.
Qed.

Lemma split_on_without (sep : ascii) (s : string) :
  without_char sep s = true -> split_on sep s = [s].
Proof.
  unfold without_char. induction s as [|c s IH]; [reflexivity|].
  simpl. intros H. apply andb_true_iff in H as [Hc Hs].
  apply negb_true_iff in Hc. rewrite Hc, (IH Hs). reflexivity.
Qed.

Lemma split_on_all_chars (p : ascii -> bool) (sep : ascii) (s : string) :
  all_chars p s = true -> Forall (fun piece => all_chars p piece = true) (split_on sep s).
Proof.
  induction s as [|c s IH]; simpl; intros H.
  - repeat constructor.
  - apply andb_true_iff in H as [Hc Hs]. specialize (IH Hs).
    destruct (Ascii.eqb c sep).
    + constructor; [reflexivity | exact IH].
    + destruct (split_on sep s) as [|w ws]; [repeat constructor; simpl; rewrite Hc; reflexivity|].
      inversion IH; subst. constructor; [simpl; rewrite Hc; assumption | assumption].
Qed.

Lemma split_on_app (sep : ascii) (a b : string) :
  split_on sep (a +:+ String sep b)
  = match split_on sep a with
    | [] => split_on sep b
    | _ => split_on sep a ++ split_on sep b
    end.
Proof.
  pose proof (split_on_nonempty sep a) as Hne.
  destruct (split_on sep a) as [|w0 ws0] eqn:Ha; [contradiction|]. rewrite <- Ha. clear.
  induction a as [|c a IH].
  - simpl. rewrite Ascii.eqb_refl. reflexivity.
  - change (String c a +:+ String sep b) with (String c (a +:+ String sep b)).
    simpl. rewrite IH. destruct (Ascii.eqb c sep); [reflexivity|].
    pose proof (split_on_nonempty sep a) as Hne.
    destruct (split_on sep a) as [|w ws]; [contradiction|]. reflexivity.
Qed.

Lemma interpolate_plain params (pieces : list string) :
  Forall (fun piece => without_char ":" piece = true) pieces ->
  map_throwing (interpolate_section params) (map (split_on ":") pieces) = inr pieces.
Proof.
  induction 1 as [|piece pieces Hpiece _ IH]; [reflexivity|].
  simpl. rewrite (split_on_without _ _ Hpiece). simpl.
  rewrite string_app_nil_r, IH. reflexivity.
Qed.

Lemma map_throwing_app {A B : Type} (f : A -> error + B) (l1 l2 : list A) :
  map_throwing f (l1 ++ l2)
  = match map_throwing f l1 with
    | inl e => inl e
    | inr b1 =>
        match map_throwing f l2 with
        | inl e => inl e
        | inr b2 => inr (b1 ++ b2)
        end
    end.
Proof.
  induction l1 as [|a l1 IH]; simpl.
  - destruct (map_throwing f l2); reflexivity.
  - destruct (f a); [reflexivity|]. rewrite IH.
    destruct (map_throwing f l1); [reflexivity|].
    destruct (map_throwing f l2); reflexivity.
Qed.

Lemma map_throwing_nonempty {A B : Type} (f : A -> error + B) (l : list A) bs :
  map_throwing f l = inr bs -> l <> [] -> bs <> [].
Proof.
  destruct l as [|a l]; [contradiction|]. simpl.
  destruct (f a); [discriminate|]. destruct (map_throwing f l); [discriminate|].
  intros H _. injection H as <-. discriminate.
Qed.

Lemma join_app (sep : string) (l1 l2 : list string) :
  l1 <> [] -> l2 <> [] ->
  join sep (l1 ++ l2) = join sep l1 +:+ sep +:+ join sep l2.
Proof.
  intros H1 H2. induction l1 as [|x l1 IH]; [contradiction|].
  destruct l1 as [|y l1].
  - destruct l2 as [|z l2]; [contradiction|]. reflexivity.
  - change (join sep ((x :: y :: l1) ++ l2))
      with (x +:+ sep +:+ join sep ((y :: l1) ++ l2)).
    rewrite IH by discriminate.
    change (join sep (x :: y :: l1)) with (x +:+ sep +:+ join sep (y :: l1)).
    rewrite !string_app_assoc. reflexivity.
Qed.

Lemma all_chars_app (p : ascii -> bool) (a b : string) :
  all_chars p (a +:+ b) = all_chars p a && all_chars p b.
Proof.
  induction a as [|c a IH]; [reflexivity|].
  change (String c a +:+ b) with (String c (a +:+ b)). simpl.
  rewrite IH, andb_assoc. reflexivity.
Qed.

Lemma without_char_joined (c d : ascii) (a b : string) :
  without_char c (a +:+ String d b)
  = without_char c a && (negb (Ascii.eqb d c) && without_char c b).
Proof. unfold without_char. rewrite all_chars_app. reflexivity. Qed.

(** The sections of [part:key], for a [part] and a [key] without [:]. *)
Lemma split_on_colon_pair (part key : string) :
  without_char ":" part = true -> without_char ":" key = true ->
  split_on ":" (part +:+ ":" +:+ key) = [part; key].
Proof.
  intros Hp Hk. change (part +:+ ":" +:+ key) with (part +:+ String ":" key).
  rewrite split_on_app, !split_on_without by assumption. reflexivity.
Qed.

(** X1. A template path in which no [:] occurs is returned as it is,
    whatever the parameters, also when there are none. *)
Theorem _applyParameters_without_colon params (templatePath : string) :
  without_char ":" templatePath = true ->
  _applyParameters params templatePath = inr templatePath.
Proof.
  intros H. unfold _applyParameters, _insertPathInterpolations.
  rewrite interpolate_plain by (apply split_on_all_chars; exact H).
  rewrite (join_split_on "/"). reflexivity.
Qed.

(** X2. Interpolation works on each segment of the path on its own: the
    result for [a/b] is the result for [a], a slash, and the result for [b],
    and the first segment that fails decides the failure. *)
Theorem _applyParameters_segments params (a b : string) :
  _applyParameters params (a +:+ "/" +:+ b)
  = match _applyParameters params a with
    | inl e => inl e
    | inr a' =>
        match _applyParameters params b with
        | inl e => inl e
        | inr b' => inr (a' +:+ "/" +:+ b')
        end
    end.
Proof.
  unfold _applyParameters, _insertPathInterpolations.
  change (a +:+ "/" +:+ b) with (a +:+ String "/" b).
  rewrite split_on_app.
  pose proof (split_on_nonempty "/" a) as Ha.
  pose proof (split_on_nonempty "/" b) as Hb.
  destruct (split_on "/" a) as [|x xs] eqn:Hsa; [contradiction|].
  rewrite map_app, map_throwing_app.
  destruct (map_throwing _ (map _ (x :: xs))) as [e|pa] eqn:Hpa; [reflexivity|].
  destruct (map_throwing _ (map _ (split_on "/" b))) as [e|pb] eqn:Hpb; [reflexivity|].
  rewrite join_app; [reflexivity| |].
  - eapply map_throwing_nonempty; [exact Hpa | discriminate].
  - eapply map_throwing_nonempty; [exact Hpb|].
    destruct (split_on "/" b); [contradiction | discriminate].
Qed.

(** X3. A segment [part:key] becomes [part] followed by the string of the
    parameter [key]: the text of a string, the decimal numeral of a safe
    integer. A parameter that is not there and is the name of a member of
    [Object.prototype] gives the text of that member; any other parameter
    that is not there gives the text [undefined]; and without any parameters
    the call throws. *)
Theorem _applyParameters_key (properties : gmap string value) (part key : string) :
  without_char "/" part = true -> without_char ":" part = true ->
  without_char "/" key = true -> without_char ":" key = true ->
  key <> EmptyString ->
  (forall text, properties !! key = Some (VStr text) ->
      _applyParameters (Some properties) (part +:+ ":" +:+ key)
      = inr (part +:+ text))
  /\ (forall n, properties !! key = Some (VNum n) ->
      printable (VNum n) = true ->
      _applyParameters (Some properties) (part +:+ ":" +:+ key)
      = inr (part +:+ Z_to_string n))
  /\ (properties !! key = None -> key ∈ Object_prototype ->
      _applyParameters (Some properties) (part +:+ ":" +:+ key)
      = inr (part +:+ inherited_toString key))
  /\ (properties !! key = None -> key ∉ Object_prototype ->
      _applyParameters (Some properties) (part +:+ ":" +:+ key)
      = inr (part +:+ "undefined"))
  /\ exists message,
       _applyParameters None (part +:+ ":" +:+ key) = inl (TypeError message).
Proof.
  intros Hp1 Hp2 Hk1 Hk2 Hkey.
  assert (Hwhole : split_on "/" (part +:+ ":" +:+ key) = [part +:+ ":" +:+ key]).
  { apply split_on_without.
    change (part +:+ ":" +:+ key) with (part +:+ String ":" key).
    rewrite without_char_joined, Hp1, Hk1. reflexivity. }
  assert (Hneq : String.eqb key EmptyString = false).
  { apply String.eqb_neq. exact Hkey. }
  unfold _applyParameters, _insertPathInterpolations. rewrite Hwhole. simpl map.
  rewrite split_on_colon_pair by assumption.
  cbn [map_throwing interpolate_section]. rewrite Hneq.
  split; [|split; [|split; [|split]]].
  - intros text Hown. unfold js_get. rewrite Hown. reflexivity.
  - intros n Hown _. unfold js_get. rewrite Hown. reflexivity.
  - intros Hnone Hin. unfold js_get. rewrite Hnone.
    rewrite (bool_decide_eq_true_2 _ Hin). reflexivity.
  - intros Hnone Hout. unfold js_get. rewrite Hnone.
    rewrite (bool_decide_eq_false_2 _ Hout). reflexivity.
  - eexists. reflexivity.
Qed.

(** X4. Within a segment, what follows a second [:] is dropped. *)
Theorem _applyParameters_second_colon params (part key rest : string) :
  without_char "/" part = true -> without_char ":" part = true ->
  without_char "/" key = true -> without_char ":" key = true ->
  without_char "/" rest = true ->
  _applyParameters params (part +:+ ":" +:+ key +:+ ":" +:+ rest)
  = _applyParameters params (part +:+ ":" +:+ key).
Proof.
  intros Hp1 Hp2 Hk1 Hk2 Hr.
  assert (H1 : split_on "/" (part +:+ ":" +:+ key +:+ ":" +:+ rest)
               = [part +:+ ":" +:+ key +:+ ":" +:+ rest]).
  { apply split_on_without.
    change (part +:+ ":" +:+ key +:+ ":" +:+ rest)
      with (part +:+ String ":" (key +:+ String ":" rest)).
    rewrite !without_char_joined, Hp1, Hk1, Hr. reflexivity. }
  assert (H2 : split_on "/" (part +:+ ":" +:+ key) = [part +:+ ":" +:+ key]).
  { apply split_on_without.
    change (part +:+ ":" +:+ key) with (part +:+ String ":" key).
    rewrite without_char_joined, Hp1, Hk1. reflexivity. }
  unfold _applyParameters, _insertPathInterpolations. rewrite H1, H2. simpl map.
  rewrite (split_on_colon_pair part key) by assumption.
  change (part +:+ ":" +:+ key +:+ ":" +:+ rest)
    with (part +:+ String ":" (key +:+ String ":" rest)).
  rewrite split_on_app, (split_on_without ":" part) by assumption.
  rewrite split_on_app, (split_on_without ":" key) by assumption.
  pose proof (split_on_nonempty ":" rest) as Hne.
  destruct (split_on ":" rest) as [|r rs]; [contradiction|].
  reflexivity.
Qed.

(** X5. A remote url without a relative part, or with an empty one,
    resolves to its base for every context; with a relative part in which no
    [:] occurs it resolves to [url.resolve(base, relative)], also for a
    context without parameters. *)
Theorem RemoteUrl_resolve_plain (url_resolve : string -> string -> string)
    (basePath : BasePath) (relative : string) (context : Context) :
  without_char ":" relative = true ->
  let base := _base (new_RemoteUrl basePath RelativeUndefined) in
  RemoteUrl_resolve url_resolve (new_RemoteUrl basePath RelativeUndefined) context
  = inr base
  /\ RemoteUrl_resolve url_resolve
       (new_RemoteUrl basePath (RelativeString EmptyString)) context
     = inr base
  /\ (relative <> EmptyString ->
      RemoteUrl_resolve url_resolve
        (new_RemoteUrl basePath (RelativeString relative)) context
      = inr (url_resolve base relative)).
Proof.
  intros Hplain base. split; [reflexivity|]. split; [reflexivity|].
  intros Hne. unfold RemoteUrl_resolve. simpl.
  apply String.eqb_neq in Hne. rewrite Hne.
  unfold _applyParameters, _insertPathInterpolations.
  rewrite interpolate_plain by (apply split_on_all_chars; exact Hplain).
  rewrite (join_split_on "/"). reflexivity.
Qed.

(** * The method of a route, the messages of a fragment *)

Lemma lower_char_idempotent (c : ascii) : lower_char (lower_char c) = lower_char c.
Proof. destruct c as [[] [] [] [] [] [] [] []]; reflexivity. Qed.

Lemma lower_char_not_upper (c : ascii) : is_upper (lower_char c) = false.
Proof. destruct c as [[] [] [] [] [] [] [] []]; reflexivity. Qed.

Lemma toLowerCase_idempotent (s : string) : toLowerCase (toLowerCase s) = toLowerCase s.
Proof.
  induction s as [|c s IH]; [reflexivity|].
  simpl. rewrite lower_char_idempotent, IH. reflexivity.
Qed.

Lemma toLowerCase_no_upper (s : string) :
  all_chars (fun c => negb (is_upper c)) (toLowerCase s) = true.
Proof.
  induction s as [|c s IH]; [reflexivity|].
  simpl. rewrite lower_char_not_upper, IH. reflexivity.
Qed.

(** X6. The method of a route is never empty and holds no upper-case
    letter: it is the configured method in lower case, and [get] when no
    method, or the empty one, is configured. *)
Theorem Route_method_lower_case (options_method : option string) :
  let method := Route_method (new_Route_method options_method) in
  method <> EmptyString
  /\ all_chars (fun c => negb (is_upper c)) method = true
  /\ toLowerCase method = method
  /\ method = match options_method with
              | None => "get"
              | Some m => if String.eqb m EmptyString then "get" else toLowerCase m
              end.
Proof.
  unfold Route_method, new_Route_method.
  destruct options_method as [m|]; cbv zeta;
    [|repeat split; first [discriminate | reflexivity]].
  destruct (String.eqb m EmptyString) eqn:Hm.
  - rewrite Hm. repeat split; first [discriminate | reflexivity].
  - assert (Hlow : String.eqb (toLowerCase m) EmptyString = false)
      by (destruct m; [discriminate | reflexivity]).
    rewrite Hlow. split; [apply String.eqb_neq; exact Hlow|].
    split; [apply toLowerCase_no_upper|].
    split; [apply toLowerCase_idempotent | reflexivity].
Qed.

(** X7. The missing-content message of a fragment always has a truthy
    body: the configured or computed message, or the default text when that
    is falsy. Its content type is [text/html] exactly when the message is a
    string; so with nothing configured the default text, a paragraph of
    HTML, is labelled [application/json]. *)
Theorem contentMissingMessage_shape (f : Fragment) (fetchError : value) :
  let message := resolve_message (_contentMissingMessage f) fetchError in
  exists body,
    contentMissingMessage f fetchError
    = VObj [("body", body);
            ("contentType",
             VStr (if is_string message then "text/html" else "application/json"))]
    /\ truthy body = true
    /\ (truthy message = true -> body = message)
    /\ (truthy message = false -> body = VStr default_missing_message)
    /\ (_contentMissingMessage f = MsgValue VUndefined ->
        contentMissingMessage f fetchError
        = VObj [("body", VStr default_missing_message);
                ("contentType", VStr "application/json")]).
Proof.
  intros message. unfold contentMissingMessage. fold message.
  exists (js_or message (VStr default_missing_message)).
  split; [reflexivity|]. unfold js_or.
  destruct (truthy message) eqn:Ht.
  - split; [exact Ht|]. split; [reflexivity|]. split; [discriminate|].
    intros Hunset. subst message. rewrite Hunset in Ht. discriminate.
  - split; [reflexivity|]. split; [discriminate|]. split; [reflexivity|].
    intros Hunset. subst message. rewrite Hunset. reflexivity.
Qed.

(** * The tag expression and the attribute expressions *)

Lemma ci_strip_length (p s r : string) :
  ci_strip p s = Some r -> String.length s = String.length p + String.length r.
Proof.
  revert s. induction p as [|a p IH]; intros s H; simpl in *.
  - injection H as ->. reflexivity.
  - destruct s as [|b s]; [discriminate|].
    destruct (ci_eqb a b); [|discriminate].
    simpl. rewrite (IH _ H). reflexivity.
Qed.

Lemma span_not_gt_spec (s run rest : string) :
  span_not_gt s = (run, rest) ->
  String.length s = String.length run + String.length rest
  /\ without_char ">" run = true.
Proof.
  revert run rest. induction s as [|c s IH]; intros run rest H; simpl in H.
  - injection H as <- <-. split; reflexivity.
  - destruct (is_gt c) eqn:Hc.
    + injection H as <- <-. split; reflexivity.
    + destruct (span_not_gt s) as [run' rest'] eqn:Hs.
      injection H as <- <-. destruct (IH _ _ eq_refl) as [Hlen Hrun].
      split; [simpl; rewrite Hlen; reflexivity|].
      unfold without_char in *. simpl. unfold is_gt in Hc. rewrite Hc, Hrun. reflexivity.
Qed.

Lemma lazy_until_close_length (s body : string) :
  lazy_until_close s = Some body ->
  String.length body + String.length close_tag <= String.length s.
Proof.
  revert body. induction s as [|c s IH]; intros body H.
  - simpl in H. discriminate.
  - cbn [lazy_until_close] in H.
    destruct (ci_strip close_tag (String c s)) as [r|] eqn:Hclose.
    + injection H as <-. apply ci_strip_length in Hclose. simpl in *. lia.
    + destruct (lazy_until_close s) as [body'|]; [|discriminate].
      injection H as <-. specialize (IH _ eq_refl). simpl in *. lia.
Qed.

Lemma match_tag_here_spec (s attribs body : string) (len : nat) :
  match_tag_here s = Some (attribs, body, len) ->
  len = String.length open_tag + String.length attribs + 1
        + String.length body + String.length close_tag
  /\ len <= String.length s
  /\ attribs <> EmptyString
  /\ without_char ">" attribs = true.
Proof.
  unfold match_tag_here. intros H.
  destruct (ci_strip open_tag s) as [r1|] eqn:Hopen; [|discriminate].
  destruct (span_not_gt r1) as [run rest] eqn:Hspan.
  destruct run as [|c run]; [discriminate|].
  destruct rest as [|g r2]; [discriminate|].
  destruct (lazy_until_close r2) as [b|] eqn:Hclose; [|discriminate].
  injection H as <- <- <-.
  apply ci_strip_length in Hopen. apply span_not_gt_spec in Hspan as [Hlen Hrun].
  apply lazy_until_close_length in Hclose.
  split; [reflexivity|]. split; [simpl in *; lia|]. split; [discriminate | exact Hrun].
Qed.

Lemma ascending_weaken (bound bound' : nat) (matches : list TagMatch) :
  bound' <= bound -> ascending bound matches -> ascending bound' matches.
Proof.
  destruct matches as [|m rest]; [trivial|]. simpl.
  intros Hle (H1 & H2 & H3). repeat split; [lia | exact H2 | exact H3].
Qed.

Lemma exec_all_from_invariant (s : string) (pos skip : nat) :
  ascending (pos + skip) (exec_all_from s pos skip)
  /\ Forall (well_formed_match (pos + String.length s)) (exec_all_from s pos skip).
Proof.
  revert pos skip. induction s as [|c s IH]; intros pos skip.
  - split; [exact I | constructor].
  - cbn [exec_all_from]. destruct skip as [|k].
    + destruct (match_tag_here (String c s)) as [[[attribs body] len]|] eqn:Hm.
      * apply match_tag_here_spec in Hm as (Hlen & Hbound & Hne & Hgt).
        assert (0 < len) by lia.
        destruct (IH (S pos) (len - 1)) as [Hasc Hall].
        split.
        -- cbn [ascending matchIndex lastIndex]. repeat split; [lia | lia |].
           replace (pos + len) with (S pos + (len - 1)) by lia. exact Hasc.
        -- constructor.
           ++ unfold well_formed_match.
              cbn [matchIndex lastIndex commandAttribs embeddedTemplate].
              repeat split; try assumption; lia.
           ++ replace (pos + String.length (String c s))
                with (S pos + String.length s) by (simpl; lia).
              exact Hall.
      * destruct (IH (S pos) 0) as [Hasc Hall]. split.
        -- eapply ascending_weaken; [|exact Hasc]. lia.
        -- replace (pos + String.length (String c s))
             with (S pos + String.length s) by (simpl; lia).
           exact Hall.
    + destruct (IH (S pos) k) as [Hasc Hall]. split.
      * replace (pos + S k) with (S pos + k) by lia. exact Hasc.
      * replace (pos + String.length (String c s))
          with (S pos + String.length s) by (simpl; lia).
        exact Hall.
Qed.

(** X8. The matches of the tag expression lie within the text, one after
    the other without overlap; the two captures and the fixed parts of the
    tag account for the whole length of a match, and the attributes captured
    are never empty and hold no [>]. *)
Theorem exec_all_ascending (text : string) :
  ascending 0 (exec_all text)
  /\ Forall (well_formed_match (String.length text)) (exec_all text).
Proof. exact (exec_all_from_invariant text 0 0). Qed.

Lemma capture_before_quote_spec (s cap : string) :
  capture_before_quote s = Some cap ->
  cap <> EmptyString /\ all_chars value_char cap = true.
Proof.
  revert cap. induction s as [|c s IH]; intros cap H; [discriminate|].
  cbn [capture_before_quote] in H.
  destruct (is_space c || is_gt c) eqn:Hc; [discriminate|].
  assert (Hv : value_char c = true) by (unfold value_char; rewrite Hc; reflexivity).
  destruct (capture_before_quote s) as [cap'|].
  - injection H as <-. destruct (IH _ eq_refl) as [_ Hall].
    split; [discriminate|]. simpl. rewrite Hv, Hall. reflexivity.
  - destruct s as [|q s']; [discriminate|].
    destruct (is_quote q); [|discriminate].
    injection H as <-. split; [discriminate|]. simpl. rewrite Hv. reflexivity.
Qed.

Lemma exec_quoted_spec (key s cap : string) :
  exec_quoted key s = Some cap ->
  cap <> EmptyString /\ all_chars value_char cap = true.
Proof.
  induction s as [|c s IH]; cbn [exec_quoted]; intros H.
  - destruct (ci_strip key EmptyString) as [[|q r]|];
      try discriminate.
    destruct (is_quote q); [|discriminate].
    destruct (capture_before_quote r) eqn:Hcap; [|discriminate].
    injection H as <-. eapply capture_before_quote_spec; exact Hcap.
  - destruct (match ci_strip key (String c s) with
              | Some (String q r) => if is_quote q then capture_before_quote r else None
              | _ => None
              end) as [cap'|] eqn:Hhere.
    + injection H as <-.
      destruct (ci_strip key (String c s)) as [[|q r]|]; try discriminate.
      destruct (is_quote q); [|discriminate].
      eapply capture_before_quote_spec; exact Hhere.
    + apply IH. exact H.
Qed.

Lemma split_on_pieces_without (sep : ascii) (s : string) :
  Forall (fun piece => without_char sep piece = true) (split_on sep s).
Proof.
  induction s as [|c s IH]; simpl.
  - repeat constructor.
  - destruct (Ascii.eqb c sep) eqn:Hc.
    + constructor; [reflexivity | exact IH].
    + pose proof (split_on_nonempty sep s) as Hne.
      destruct (split_on sep s) as [|w ws]; [contradiction|].
      inversion IH; subst. constructor; [|assumption].
      unfold without_char in *. simpl. rewrite Hc. assumption.
Qed.

Lemma trim_value_chars (s : string) : all_chars value_char s = true -> trim s = s.
Proof.
  intros H. unfold trim.
  assert (Hleft : trim_left s = s).
  { destruct s as [|c s]; [reflexivity|]. simpl in *.
    apply andb_true_iff in H as [Hc _]. unfold value_char in Hc.
    apply negb_true_iff, orb_false_iff in Hc as [-> _]. reflexivity. }
  rewrite Hleft. clear Hleft.
  induction s as [|c s IH]; [reflexivity|].
  simpl in H. apply andb_true_iff in H as [Hc Hs].
  cbn [trim_right]. rewrite (IH Hs).
  unfold value_char in Hc. apply negb_true_iff, orb_false_iff in Hc as [Hc _].
  destruct s; [rewrite Hc|]; reflexivity.
Qed.

(** X9. The values the attribute expressions capture are never empty and
    hold neither a blank nor [>]. So a name given by [fragment-name] or
    [fragment-repeat] is truthy whenever the expression matches, the names
    of [models] hold no blank and no comma, trimming them changes nothing,
    and the list of names is empty only when the attribute is not
    recognised. *)
Theorem captured_values (attribs : string) :
  let attributes := _testInjectAttributes attribs in
  Forall (fun name => all_chars value_char name = true
                      /\ without_char "," name = true
                      /\ trim name = name)
         (requiredSources attributes)
  /\ (forall name, templateNameToInject attributes = Some name ->
        name <> EmptyString /\ all_chars value_char name = true)
  /\ (forall accessor, iterateOverDataName attributes = Some accessor ->
        accessor <> EmptyString /\ all_chars value_char accessor = true)
  /\ (requiredSources attributes = [] <-> regex_models attribs = None).
Proof.
  cbv zeta. unfold _testInjectAttributes. cbn [requiredSources templateNameToInject iterateOverDataName].
  split; [|split; [|split]].
  - destruct (regex_models attribs) as [names|] eqn:Hm; [|constructor].
    apply exec_quoted_spec in Hm as [_ Hall]. unfold array_or.
    pose proof (split_on_all_chars value_char "," names Hall) as H1.
    pose proof (split_on_pieces_without "," names) as H2.
    induction H1 as [|piece pieces Hp _ IH]; [constructor|].
    inversion H2; subst. simpl.
    rewrite (trim_value_chars piece Hp).
    constructor; [|apply IH; assumption].
    repeat split; try assumption. apply trim_value_chars. exact Hp.
  - intros name H. eapply exec_quoted_spec. exact H.
  - intros accessor H. eapply exec_quoted_spec. exact H.
  - destruct (regex_models attribs) as [names|]; [|split; reflexivity].
    unfold array_or. split; [|discriminate].
    pose proof (split_on_nonempty "," names) as Hne.
    destruct (split_on "," names); [contradiction | discriminate].
Qed.

(** * Reassembling the text *)

Lemma substring_empty (n : nat) (s : string) : String.substring n 0 s = EmptyString.
Proof.
  revert n. induction s as [|c s IH]; intros [|n]; simpl; try reflexivity. apply IH.
Qed.

Lemma substring_app (s : string) (a n m : nat) :
  String.substring a n s +:+ String.substring (a + n) m s = String.substring a (n + m) s.
Proof.
  revert a n. induction s as [|c s IH]; intros a n.
  - destruct a, n, m; reflexivity.
  - destruct a as [|a].
    + destruct n as [|n].
      * reflexivity.
      * change (String c (String.substring 0 n s +:+ String.substring (0 + n) m s)
                = String c (String.substring 0 (n + m) s)).
        rewrite IH. reflexivity.
    + change (String.substring a n s +:+ String.substring (a + n) m s
              = String.substring a (n + m) s).
      apply IH.
Qed.

Lemma js_substring_ordered (s : string) (a b : nat) :
  a <= b -> b <= String.length s ->
  js_substring s a b = String.substring a (b - a) s.
Proof.
  intros Hab Hb. unfold js_substring.
  rewrite (Nat.min_l a b), (Nat.max_r a b), (Nat.min_l a), (Nat.min_l b) by lia.
  reflexivity.
Qed.

Lemma js_substring_app (s : string) (a b c : nat) :
  a <= b -> b <= c -> c <= String.length s ->
  js_substring s a b +:+ js_substring s b c = js_substring s a c.
Proof.
  intros Hab Hbc Hc. rewrite !js_substring_ordered by lia.
  replace b with (a + (b - a)) at 2 by lia.
  rewrite substring_app. f_equal. lia.
Qed.

Lemma _injectReplacements_fold (text : string) (matches : list TagMatch) prev acc :
  prev <= String.length text ->
  ascending prev matches ->
  Forall (well_formed_match (String.length text)) matches ->
  exists stop,
    prev <= stop <= String.length text
    /\ foldl (fun '(prevStart, acc) '(start, stop, part) =>
                (stop, acc +:+ js_substring text prevStart start +:+ js_toString part))
             (prev, acc) (map (replaced_by_itself text) matches)
       = (stop, acc +:+ js_substring text prev stop).
Proof.
  revert prev acc. induction matches as [|m rest IH]; intros prev acc Hprev Hasc Hall.
  - exists prev. split; [lia|]. simpl.
    rewrite js_substring_ordered, Nat.sub_diag, substring_empty, string_app_nil_r by lia.
    reflexivity.
  - destruct Hasc as (H1 & H2 & Hrest). inversion Hall as [|? ? Hm Hall']; subst.
    destruct Hm as (Hbound & _).
    destruct (IH (lastIndex m)
                 (acc +:+ js_substring text prev (matchIndex m)
                      +:+ js_substring text (matchIndex m) (lastIndex m))
                 Hbound Hrest Hall') as (stop & Hstop & Hfold).
    exists stop. split; [lia|].
    cbn [map foldl replaced_by_itself js_toString]. rewrite Hfold.
    rewrite !string_app_assoc, !js_substring_app by lia. reflexivity.
Qed.

(** X10. The offsets of the matches fit the text: when every match is
    replaced by the very text it matched, [_injectReplacements] gives the
    source text back. *)
Theorem _injectReplacements_identity (text : string) :
  _injectReplacements (VStr text) (map (replaced_by_itself text) (exec_all text))
  = inr text.
Proof.
  destruct (exec_all_from_invariant text 0 0) as [Hasc Hall].
  destruct (_injectReplacements_fold text (exec_all text) 0 EmptyString
              (Nat.le_0_l _) Hasc Hall) as (stop & Hstop & Hfold).
  unfold _injectReplacements. unfold exec_all in *. rewrite Hfold.
  unfold js_substring_from.
  change (EmptyString +:+ js_substring text 0 stop) with (js_substring text 0 stop).
  rewrite js_substring_app by lia.
  rewrite js_substring_ordered, Nat.sub_0_r, substring_whole by lia. reflexivity.
Qed.

(** * The compositor on concrete routes *)

(** The example of the design: the base template that injects [greeter]
    renders to the text of [greeter], after the two fetches of the base
    template and the fetch of [greeter], whatever the schedule. *)
Example render_greeter (schedule : list nat) :
  perform (render localDataFetcher sample_dot sample_getProperty greeter_route)
          (request schedule)
  = (inr (mkFragmentBody (VStr "Hello") (VStr "text/html")), [],
     mkWorld [base_call greeter_route; base_call greeter_route;
              template_fetch (inline "html" (VStr "Hello"))] schedule).
Proof. vm_compute. reflexivity. Qed.

(** ** The tag and attribute expressions *)

Example exec_all_two_tags :
  exec_all "a<fragment-inject fragment-name='x' required></FRAGMENT-inject>bc<fragment-inject template>T</fragment-inject>"
  = [mkTagMatch "fragment-name='x' required" EmptyString 1 63;
     mkTagMatch "template" "T" 65 110].
Proof. vm_compute. reflexivity. Qed.

Example exec_all_unclosed : exec_all "<fragment-inject template>T" = [].
Proof. reflexivity. Qed.

Example regex_models_example :
  regex_models "template models='a,b' fragment-repeat='a.list'" = Some "a,b"
  /\ regex_repeat "template models='a,b' fragment-repeat='a.list'" = Some "a.list"
  /\ regex_name "template models='a,b'" = None
  /\ regex_template "template models='a,b'" = true
  /\ regex_template "fragment-name='template'" = false
  /\ regex_required "fragment-name='x' REQUIRED" = true.
Proof. vm_compute. repeat split. Qed.

(** ** The depth ceiling on a route *)


(** A fragment that injects itself is expanded [MAX_DEPTH] times; the tag
    of the last expansion is left in the output, and no error is raised. *)
Example depth_ceiling_cycle (schedule : list nat) :
  fst (fst (perform (render localDataFetcher sample_dot sample_getProperty cycle_route)
              (request schedule)))
  = inr (mkFragmentBody
           (VStr ("(((((" +:+ inject_loop +:+ ")))))")) (VStr "text/html")).
Proof. vm_compute. reflexivity. Qed.

(** ** A body without tags *)

Lemma no_tags_identity_witness :
  perform (renderRecursive localDataFetcher sample_dot sample_getProperty
             (new_FragmentManager greeter_route) (VStr "<p>Hello <b>world</b></p>") 1)
          (request [])
  = (inr (VStr "<p>Hello <b>world</b></p>"), [], request []).
Proof.
  apply (no_tags_identity localDataFetcher sample_dot sample_getProperty).
  - vm_compute. reflexivity.
  - unfold MAX_DEPTH. lia.
Defined.

(** ** A name the route does not have *)

(** For a name that the route does not have, the fetcher of the test suite
    is called, with an undefined fragment, and it is its failure that
    [fragmentBody] reports. *)
Lemma fragmentBody_unknown_name_counterexample :
  fragments greeter_route !! "ghost" = None
  /\ fragmentBody localDataFetcher (new_FragmentManager greeter_route) "ghost" None
       (request [])
     = (inl (TypeError "Cannot read property 'localData' of undefined"), [],
        mkWorld [mkFetchCall Absent None] [])
  /\ fragmentBody localDataFetcher (new_FragmentManager greeter_route) "ghost" None
       (request [])
     <> (inl (UnknownFragmentReference "ghost"), [], request []).
Proof.
  split; [vm_compute; reflexivity|]. split; [vm_compute; reflexivity|].
  vm_compute. discriminate.
Qed.

Lemma fragmentBody_unknown_name_witness :
  fragmentBody rejectingFetcher (new_FragmentManager greeter_route) "ghost" None
    (request [])
  = (inr (inl fetch_failure), [], mkWorld [mkFetchCall Absent None] [])
  /\ fragmentBody localDataFetcher (new_FragmentManager greeter_route) "toString" None
       (request [])
     = (inr (inr VUndefined), [], mkWorld [mkFetchCall (Inherited "toString") None] []).
Proof.
  split.
  - destruct (fragmentBody_unknown_name rejectingFetcher
                (new_FragmentManager greeter_route) "ghost" None (request []))
      as [H _]; [vm_compute; reflexivity|].
    etransitivity; [exact H | vm_compute; reflexivity].
  - destruct (fragmentBody_unknown_name localDataFetcher
                (new_FragmentManager greeter_route) "toString" None (request []))
      as [H _]; [vm_compute; reflexivity|].
    etransitivity; [exact H | vm_compute; reflexivity].
Defined.

(** ** The fetches of the base fragment *)

(** When the first fetch of the base fragment fails, the fetcher is called
    once, not twice. *)
Lemma render_fetches_base_twice_counterexample :
  perform (render rejectingFetcher sample_dot sample_getProperty greeter_route)
          (request [])
  = (inl fetch_failure, [], mkWorld [base_call greeter_route] []).
Proof. vm_compute. reflexivity. Qed.

(** With a fetcher that numbers its answers, the content type returned is
    that of the second call. *)
Example render_content_type_of_second_fetch (schedule : list nat) :
  fst (fst (perform (render countingFetcher sample_dot sample_getProperty greeter_route)
              (request schedule)))
  = inr (mkFragmentBody (VStr "Hello") (VNum 1)).
Proof. vm_compute. reflexivity. Qed.

(** ** Declared data dependencies *)

(** C1, on the code. The data dependencies handed to [_renderFragment] are
    those of the [models] attribute, and none when the tag has no such
    attribute, whatever the fragment declares. The fragment [card] declares
    that it needs [dataModel], and the tag that injects it has no [models]
    attribute: [dataModel] is not fetched and the template is evaluated
    against an empty data context. With [models='dataModel'] on the tag the
    data is there. *)
Theorem requiredData_is_not_consulted :
  requiredData card = ["dataModel"]
  /\ requiredSources (_testInjectAttributes "fragment-name='card'") = []
  /\ (forall (attributes : string) (toInject : Property Fragment),
        effective_sources (requiredSources (_testInjectAttributes attributes)) toInject
        = match regex_models attributes with
          | Some names => map trim (split_on "," names)
          | None => []
          end)
  /\ (forall schedule,
        perform (render localDataFetcher probe_dot sample_getProperty
                   (card_route EmptyString)) (request schedule)
        = (inr (mkFragmentBody (VStr "card:") (VStr "text/html")), [],
           mkWorld [base_call (card_route EmptyString);
                    base_call (card_route EmptyString);
                    template_fetch card] schedule))
  /\ (forall schedule,
        fst (fst (perform (render localDataFetcher probe_dot sample_getProperty
                             (card_route " models='dataModel'")) (request schedule)))
        = inr (mkFragmentBody (VStr "card:dataModel") (VStr "text/html"))).
Proof.
  split; [reflexivity|]. split; [vm_compute; reflexivity|].
  split.
  { intros attributes toInject.
    unfold effective_sources, array_or, _testInjectAttributes. simpl.
    destruct (regex_models attributes); reflexivity. }
  split; intros schedule; vm_compute; reflexivity.
Qed.

(** ** A repetition whose source failed *)

(** C6, on the code. The source [data] of the list is out of reach and its
    failure is handed back as its body. The replacement of the tag is then
    the whole object that [contentMissingMessage] builds, not the [body] of
    it, and in the output the tag is replaced by the string of an object. *)
Theorem repeat_source_failure_yields_object :
  let source := remote "http://backend/items" in
  let manager := new_FragmentManager unreachable_route in
  let message := contentMissingMessage source (VError fetch_failure) in
  unreachableFetcher [] (mkFetchCall (Own source) (Some true))
  = Returns (inr (mkFragmentBody (VError fetch_failure) (VStr "text/html")))
  /\ (forall schedule,
        perform (_renderFragment unreachableFetcher sample_dot sample_getProperty manager
                   (fun b => renderRecursive unreachableFetcher sample_dot
                               sample_getProperty manager b 2)
                   (Own (html false (VStr "x"))) (VStr "x") false ["data"]
                   (Some "data.items")) (request schedule)
        = (inr message, [],
           mkWorld [mkFetchCall (Own source) (Some true)] schedule))
  /\ message = VObj [("body", VStr default_missing_message);
                     ("contentType", VStr "application/json")]
  /\ js_toString message = "[object Object]"
  /\ (forall schedule,
        fst (fst (perform (render unreachableFetcher sample_dot sample_getProperty
                             unreachable_route) (request schedule)))
        = inr (mkFragmentBody (VStr "<ul>[object Object]</ul>") (VStr "text/html"))).
Proof.
  repeat split; try (intros schedule); vm_compute; reflexivity.
Qed.

(** ** A required tag below an optional fragment *)

(** C2, on the code. The tag of [inner] is marked [required] and the
    rendering of its template fails: the call of [renderRecursive] that
    scans the tag fails. But the tag stands in the template of the optional
    fragment [outer]: [_renderFragmentPart] wraps the failure of the nested
    call, the tag of [outer] replaces it by its render-error message, and
    the render succeeds. *)
Theorem required_failure_is_swallowed :
  let inner_tag := "<fragment-inject fragment-name='inner' required></fragment-inject>" in
  let ghost_tag := "<fragment-inject fragment-name='ghost'></fragment-inject>" in
  let manager := new_FragmentManager nested_required_route in
  specifiedRequired (_testInjectAttributes "fragment-name='inner' required") = true
  /\ fragments nested_required_route !! "outer" = Some (inline "html" (VStr inner_tag))
  /\ (forall schedule,
        perform (renderRecursive localDataFetcher sample_dot sample_getProperty manager
                   (VStr inner_tag) 2) (request schedule)
        = (inl (FragmentRenderError (UnknownFragmentReference "ghost")), [],
           mkWorld [template_fetch (inline "html" (VStr ghost_tag))] schedule))
  /\ (forall schedule,
        perform (render localDataFetcher sample_dot sample_getProperty
                   nested_required_route) (request schedule)
        = (inr (mkFragmentBody
                  (VStr ("A" +:+ default_render_error_message +:+ "B"))
                  (VStr "text/html")), [],
           mkWorld [base_call nested_required_route; base_call nested_required_route;
                    template_fetch (inline "html" (VStr inner_tag));
                    template_fetch (inline "html" (VStr ghost_tag))] schedule)).
Proof.
  repeat split; try (intros schedule); vm_compute; reflexivity.
Qed.

(** ** Unknown names *)



(** ** A repetition over an unlisted source *)

(** The root of the repetition is not among the data dependencies of an
    optional tag: the render succeeds, with the render-error message in the
    place of the tag. *)
Lemma invalid_repeat_source_counterexample :
  fst (fst (perform (render localDataFetcher sample_dot sample_getProperty
                       (unlisted_repeat_route EmptyString)) (request [])))
  = inr (mkFragmentBody
           (VStr ("A" +:+ default_render_error_message +:+ "B")) (VStr "text/html"))
  /\ forall schedule,
       fst (fst (perform (render localDataFetcher sample_dot sample_getProperty
                            (unlisted_repeat_route EmptyString)) (request schedule)))
       = inr (mkFragmentBody
                (VStr ("A" +:+ default_render_error_message +:+ "B")) (VStr "text/html")).
Proof. split; [|intros schedule]; vm_compute; reflexivity. Qed.

Lemma invalid_repeat_source_policy_witness :
  let manager := new_FragmentManager (unlisted_repeat_route " required") in
  let recur := fun b =>
    renderRecursive localDataFetcher sample_dot sample_getProperty manager b 2 in
  perform (_renderFragment localDataFetcher sample_dot sample_getProperty manager
             recur (Own (html true (VStr "x"))) (VStr "x") false [] (Some "data.list"))
          (request [])
  = (inr (VStr default_render_error_message), [], request [])
  /\ perform (render localDataFetcher sample_dot sample_getProperty
                (unlisted_repeat_route " required")) (request [])
     = (inl (FragmentRenderError (InvalidRepeatSource "data.list")), [],
        mkWorld [base_call (unlisted_repeat_route " required");
                 base_call (unlisted_repeat_route " required");
                 template_fetch (html true (VStr "x"))] []).
Proof.
  intros manager recur.
  destruct (invalid_repeat_source_policy localDataFetcher sample_dot sample_getProperty
              manager recur (html true (VStr "x")) (VStr "x") false [] "data.list"
              (request []))
    as (_ & Hcall & _ & Hrender).
  - left. vm_compute. reflexivity.
  - split.
    + etransitivity; [exact Hcall | vm_compute; reflexivity].
    + destruct (Hrender (unlisted_repeat_route " required") (request [])
                  (new_FragmentBody
                     (localData (baseTemplate (unlisted_repeat_route " required")))
                     VUndefined)
                  (new_FragmentBody
                     (localData (baseTemplate (unlisted_repeat_route " required")))
                     VUndefined)
                  (js_toString
                     (localData (baseTemplate (unlisted_repeat_route " required"))))
                  []
                  (mkTagMatch "template required fragment-repeat='data.list'" "x" 1 83)
                  [])
        as [_ Hexact].
      * reflexivity.
      * reflexivity.
      * reflexivity.
      * reflexivity.
      * vm_compute. reflexivity.
      * vm_compute. reflexivity.
      * vm_compute. reflexivity.
      * vm_compute. reflexivity.
      * vm_compute. reflexivity.
      * etransitivity;
          [apply (Hexact eq_refl eq_refl (new_FragmentBody (VStr "x") VUndefined));
           vm_compute; reflexivity
          | vm_compute; reflexivity].
Defined.

(** ** A repetition over a list *)



(** ** Urls, on examples *)

Lemma _applyParameters_without_colon_witness :
  _applyParameters None "/users/list" = inr "/users/list".
Proof. apply _applyParameters_without_colon. vm_compute. reflexivity. Defined.

Lemma _applyParameters_key_witness :
  _applyParameters (Some {[ "id" := VNum 42; "tab" := VStr "info" ]}) "user-:id"
  = inr "user-42"
  /\ _applyParameters (Some {[ "id" := VNum 42; "tab" := VStr "info" ]}) "show-:tab"
     = inr "show-info"
  /\ _applyParameters (Some {[ "id" := VNum 42; "tab" := VStr "info" ]}) "user-:name"
     = inr "user-undefined"
  /\ _applyParameters (Some {[ "id" := VNum 42; "tab" := VStr "info" ]}) "user-:valueOf"
     = inr "user-function valueOf() { [native code] }".
Proof.
  split; [|split; [|split]].
  - destruct (_applyParameters_key {[ "id" := VNum 42; "tab" := VStr "info" ]}
                "user-" "id") as (_ & H & _);
      [vm_compute; reflexivity | vm_compute; reflexivity | vm_compute; reflexivity
      | vm_compute; reflexivity | discriminate |].
    etransitivity;
      [apply (H 42%Z); vm_compute; reflexivity | vm_compute; reflexivity].
  - destruct (_applyParameters_key {[ "id" := VNum 42; "tab" := VStr "info" ]}
                "show-" "tab") as (H & _);
      [vm_compute; reflexivity | vm_compute; reflexivity | vm_compute; reflexivity
      | vm_compute; reflexivity | discriminate |].
    etransitivity;
      [apply (H "info"); vm_compute; reflexivity | vm_compute; reflexivity].
  - destruct (_applyParameters_key {[ "id" := VNum 42; "tab" := VStr "info" ]}
                "user-" "name") as (_ & _ & _ & H & _);
      [vm_compute; reflexivity | vm_compute; reflexivity | vm_compute; reflexivity
      | vm_compute; reflexivity | discriminate |].
    etransitivity; [apply H; [vm_compute; reflexivity|] | reflexivity].
    vm_compute. intros Hin.
    repeat (apply elem_of_cons in Hin as [Hin|Hin]; [discriminate|]).
    inversion Hin.
  - destruct (_applyParameters_key {[ "id" := VNum 42; "tab" := VStr "info" ]}
                "user-" "valueOf") as (_ & _ & H & _);
      [vm_compute; reflexivity | vm_compute; reflexivity | vm_compute; reflexivity
      | vm_compute; reflexivity | discriminate |].
    etransitivity; [apply H; [vm_compute; reflexivity|] | vm_compute; reflexivity].
    apply (bool_decide_unpack _). vm_compute. exact I.
Defined.

Lemma _applyParameters_second_colon_witness :
  _applyParameters (Some {[ "b" := VStr "B" ]}) "a:b:c"
  = _applyParameters (Some {[ "b" := VStr "B" ]}) "a:b".
Proof.
  apply (_applyParameters_second_colon (Some {[ "b" := VStr "B" ]}) "a" "b" "c");
    vm_compute; reflexivity.
Defined.

(** The path of the comment in the source, [/:a/foo:b], segment by
    segment. *)
Example _applyParameters_path :
  _applyParameters (Some {[ "a" := VStr "x"; "b" := VNum 7 ]}) "/:a/foo:b"
  = inr "/x/foo7".
Proof. vm_compute. reflexivity. Qed.

Lemma RemoteUrl_resolve_plain_witness :
  RemoteUrl_resolve (fun base path => base +:+ path)
    (new_RemoteUrl (BaseObject "http://backend/" (VStr "token")) (RelativeString "items"))
    (mkContext None)
  = inr "http://backend/items".
Proof.
  apply (RemoteUrl_resolve_plain (fun base path => base +:+ path)
           (BaseObject "http://backend/" (VStr "token")) "items" (mkContext None)).
  - vm_compute. reflexivity.
  - discriminate.
Defined.

(** ** Further examples of the renderer *)

Lemma exec_all_without_lt_witness : exec_all "Hello, world" = [].
Proof. apply exec_all_without_lt. vm_compute. reflexivity. Defined.

Lemma render_returns_string_witness :
  is_string (body (mkFragmentBody (VStr "Hello") (VStr "text/html"))) = true.
Proof.
  apply (render_returns_string localDataFetcher sample_dot sample_getProperty
           greeter_route (request []) (mkFragmentBody (VStr "Hello") (VStr "text/html")) []
           (mkWorld [base_call greeter_route; base_call greeter_route;
                     template_fetch (inline "html" (VStr "Hello"))] [])).
  vm_compute. reflexivity.
Defined.

Lemma render_undefined_base_witness :
  perform (render localDataFetcher sample_dot sample_getProperty undefined_base_route)
          (request [])
  = (inl EmptyBody, [],
     mkWorld [base_call undefined_base_route; base_call undefined_base_route] []).
Proof.
  apply (render_undefined_base localDataFetcher sample_dot sample_getProperty
           undefined_base_route (request [])
           (mkFragmentBody VUndefined (VStr "text/html"))
           (mkFragmentBody VUndefined (VStr "text/html")));
    reflexivity.
Defined.

(** A tag without a template after an embedded one: the call is rejected
    when the template of the first tag has been asked for, and the
    rendering of the first tag is left behind. *)
Lemma missing_template_fails_level_witness :
  let text := "<fragment-inject template>x</fragment-inject><fragment-inject models='a'>y</fragment-inject>" in
  exists behind,
    perform (renderRecursive localDataFetcher sample_dot sample_getProperty
               (new_FragmentManager greeter_route) (VStr text) 1) (request [])
    = (inl MissingTemplateSpecification, behind,
       mkWorld [template_fetch (html false (VStr "x"))] [])
    /\ length behind = 1.
Proof.
  intros text.
  destruct (missing_template_fails_level localDataFetcher sample_dot sample_getProperty
              (new_FragmentManager greeter_route) text 1 (request [])
              [mkTagMatch "template" "x" 0 45]
              (mkTagMatch "models='a'" "y" 45 92) [])
    as (started & w1 & Hstarted & _ & _ & _ & Hcall).
  - unfold MAX_DEPTH. lia.
  - vm_compute. reflexivity.
  - constructor; [|constructor].
    exists (Own (html false (VStr "x"))). vm_compute. reflexivity.
  - vm_compute. reflexivity.
  - vm_compute. reflexivity.
  - exists (flat_map abandon started). unfold perform. rewrite Hcall. simpl run.
    simpl in Hstarted. injection Hstarted as <- <-.
    split; reflexivity.
Defined.

Lemma missing_data_source_policy_witness :
  perform (_renderFragment localDataFetcher sample_dot sample_getProperty
             (new_FragmentManager greeter_route)
             (fun b => renderRecursive localDataFetcher sample_dot sample_getProperty
                         (new_FragmentManager greeter_route) b 2)
             (Own (html false (VStr "x"))) (VStr "x") false ["greeter"; "ghost"] None)
          (request [])
  = (inr (VStr default_render_error_message), [],
     mkWorld [mkFetchCall (Own (inline "html" (VStr "Hello"))) (Some false)] []).
Proof.
  destruct (missing_data_source_policy localDataFetcher sample_dot sample_getProperty
              (new_FragmentManager greeter_route)
              (fun b => renderRecursive localDataFetcher sample_dot sample_getProperty
                          (new_FragmentManager greeter_route) b 2)
              (html false (VStr "x")) (VStr "x") false ["greeter"] "ghost" []
              (request []) [("greeter", inr (VStr "Hello"))]
              (mkWorld [mkFetchCall (Own (inline "html" (VStr "Hello"))) (Some false)] []))
    as (_ & H & _).
  - vm_compute. reflexivity.
  - vm_compute. reflexivity.
  - etransitivity; [exact H | vm_compute; reflexivity].
Defined.


Lemma template_fetch_failure_fails_level_witness :
  perform (renderRecursive rejectingFetcher sample_dot sample_getProperty
             (new_FragmentManager greeter_route)
             (VStr "<fragment-inject fragment-name='greeter' template></fragment-inject>") 1)
          (request [])
  = (inl fetch_failure, [],
     mkWorld [template_fetch (inline "html" (VStr "Hello"))] []).
Proof.
  destruct (template_fetch_failure_fails_level rejectingFetcher sample_dot
              sample_getProperty (new_FragmentManager greeter_route)
              "<fragment-inject fragment-name='greeter' template></fragment-inject>" 1
              (request []) []
              (mkTagMatch "fragment-name='greeter' template" EmptyString 0 68) []
              (Own (inline "html" (VStr "Hello"))) fetch_failure)
    as (_ & H).
  - unfold MAX_DEPTH. lia.
  - vm_compute. reflexivity.
  - vm_compute. reflexivity.
  - vm_compute. reflexivity.
  - exact (H eq_refl eq_refl).
Defined.



Lemma object_body_is_not_rendered_witness :
  perform (renderRecursive localDataFetcher sample_dot sample_getProperty
             (new_FragmentManager (repeat_route "data")) items 2) (request [])
  = (inl (TypeError "sourceText.substring is not a function"), [], request []).
Proof.
  apply (object_body_is_not_rendered localDataFetcher sample_dot sample_getProperty
           (new_FragmentManager (repeat_route "data"))
           [("items", VArr [VStr "a"; VStr "b"])] 2 (request [])).
  unfold MAX_DEPTH. lia.
Defined.

(** The matches of a text with two tags, and the text put together again
    from them. *)
Example exec_all_reassembled :
  _injectReplacements (VStr "a<fragment-inject template>T</fragment-inject>b")
    (map (replaced_by_itself "a<fragment-inject template>T</fragment-inject>b")
         (exec_all "a<fragment-inject template>T</fragment-inject>b"))
  = inr "a<fragment-inject template>T</fragment-inject>b".
Proof. vm_compute. reflexivity. Qed.

(** ** Names that every object inherits *)

(** A tag that names a member of [Object.prototype] on a route without
    such a fragment: [hasFragment] takes the inherited function for a
    fragment, the fetcher is handed that function, and the rendering ends in
    a type error. *)
Example render_inherited_name (schedule : list nat) :
  hasFragment (new_FragmentManager inherited_name_route) "constructor" = true
  /\ perform (render localDataFetcher sample_dot sample_getProperty inherited_name_route)
             (request schedule)
     = (inl (TypeError "injectedFragment.contentRenderErrorMessage is not a function"),
        [],
        mkWorld [base_call inherited_name_route; base_call inherited_name_route;
                 mkFetchCall (Inherited "constructor") None] schedule).
Proof. split; vm_compute; reflexivity. Qed.

(** Two items rendered together: the order of the texts is that of the
    list under every schedule tried here. *)
Example render_list_schedules :
  Forall (fun schedule =>
            fst (fst (perform (render localDataFetcher sample_dot sample_getProperty
                                 (repeat_route "data")) (request schedule)))
            = inr (mkFragmentBody (VStr "<ul>ab</ul>") (VStr "text/html")))
         [[]; [1]; [0; 1]; [1; 0]; [1; 1; 0; 1; 0; 0; 1]].
Proof. repeat constructor. Qed.

